(** * ResourceOwner: copy, move and swap of a class owning a heap Resource

    A shallow embedding of [ResourceOwner_2.cpp].  Objects of class
    [ResourceOwner] live in a store indexed by object identity (the C++
    [this] pointer), objects of class [Resource] live on a heap indexed by
    allocation identity, and every member function is a computation in a
    state monad with three outcomes: normal return, a propagating
    [std::bad_alloc], and undefined behaviour (deleting or dereferencing a
    pointer that is not live, using an object outside its lifetime). *)

From stdpp Require Import gmap strings list fin_maps.

Open Scope Z_scope.
Open Scope string_scope.

(** ** Data *)

(** Object identities ([this] pointers of ResourceOwner objects) and heap
    allocation identities (values of [Resource*]). *)
Abbreviation obj := nat (only parsing).
Abbreviation addr := nat (only parsing).

(** [class Resource]: one [int] field.  The program only ever copies the
    payload, it never computes with it, so the integer is kept as a [Z]. *)
Record Resource := mkResource { i_ : Z }.

(** [class ResourceOwner]: [int m_id], [std::string m_name],
    [Resource* m_resource]; [None] is [nullptr]. *)
Record ResourceOwner := mkOwner {
  m_id : Z;
  m_name : string;
  m_resource : option addr
}.

Definition set_m_id (v : Z) (w : ResourceOwner) : ResourceOwner :=
  mkOwner v (m_name w) (m_resource w).
Definition set_m_name (v : string) (w : ResourceOwner) : ResourceOwner :=
  mkOwner (m_id w) v (m_resource w).
Definition set_m_resource (v : option addr) (w : ResourceOwner) : ResourceOwner :=
  mkOwner (m_id w) (m_name w) v.

(** The machine state.
    - [heap]: the live [Resource] allocations;
    - [owners]: the [ResourceOwner] objects within their lifetime;
    - [next_addr]: identity handed out by the next successful [new]
      (allocation identities are never reused, so that releases can be
      counted per allocation);
    - [released]: the log of [delete] calls that released an allocation,
      most recent first;
    - [faults]: the allocator's script, one entry per call of [new];
      [true] makes that call throw [std::bad_alloc], an exhausted script
      lets every further call succeed. *)
Record State := mkState {
  heap : gmap nat Resource;
  owners : gmap nat ResourceOwner;
  next_addr : addr;
  released : list addr;
  faults : list bool
}.

Definition with_heap (f : gmap nat Resource → gmap nat Resource) (s : State) : State :=
  mkState (f (heap s)) (owners s) (next_addr s) (released s) (faults s).
Definition with_owners (f : gmap nat ResourceOwner → gmap nat ResourceOwner) (s : State) : State :=
  mkState (heap s) (f (owners s)) (next_addr s) (released s) (faults s).

(** ** The monad of member functions *)

Inductive Outcome (A : Type) : Type :=
  | Normal (a : A) (s : State)     (* returned [a] *)
  | Throws (s : State)             (* std::bad_alloc propagates *)
  | Undefined.                     (* undefined behaviour *)
Arguments Normal {A} a s.
Arguments Throws {A} s.
Arguments Undefined {A}.

Definition M (A : Type) : Type := State → Outcome A.

#[global] Instance M_ret : MRet M := λ A a s, Normal a s.
#[global] Instance M_bind : MBind M := λ A B f m s,
  match m s with
  | Normal a s' => f a s'
  | Throws s' => Throws s'
  | Undefined => Undefined
  end.

(** Reading and writing a data member of the object [o]. *)
Definition field {A} (o : obj) (f : ResourceOwner → A) : M A := λ s,
  match owners s !! o with
  | Some w => Normal (f w) s
  | None => Undefined
  end.

Definition assign (o : obj) (upd : ResourceOwner → ResourceOwner) : M unit := λ s,
  match owners s !! o with
  | Some w => Normal tt (with_owners (insert o (upd w)) s)
  | None => Undefined
  end.

(** The lifetime of the object [o] begins (its members are initialised) or
    ends (its storage goes away). *)
Definition begin_lifetime (o : obj) (w : ResourceOwner) : M unit := λ s,
  match owners s !! o with
  | Some _ => Undefined
  | None => Normal tt (with_owners (insert o w) s)
  end.

Definition end_lifetime (o : obj) : M unit := λ s,
  match owners s !! o with
  | Some _ => Normal tt (with_owners (delete o) s)
  | None => Undefined
  end.

(** A constructor body that throws: the members already initialised are
    destroyed and the object never comes to life. *)
Definition unwinding {A} (o : obj) (m : M A) : M A := λ s,
  match m s with
  | Throws s' => Throws (with_owners (delete o) s')
  | r => r
  end.

(** Access through a [Resource*]. *)
Definition deref (p : addr) : M Resource := λ s,
  match heap s !! p with
  | Some r => Normal r s
  | None => Undefined
  end.

Definition store (p : addr) (r : Resource) : M unit := λ s,
  match heap s !! p with
  | Some _ => Normal tt (with_heap (insert p r) s)
  | None => Undefined
  end.

(** [new Resource{ ... }]: the allocation function runs first and may throw,
    then the constructor [init] computes the new object. *)
Definition allocate : M addr := λ s,
  match faults s with
  | true :: fs => Throws (mkState (heap s) (owners s) (next_addr s) (released s) fs)
  | _ => Normal (next_addr s)
           (mkState (heap s) (owners s) (S (next_addr s)) (released s) (tail (faults s)))
  end.

Definition construct_at (p : addr) (r : Resource) : M unit := λ s,
  Normal tt (with_heap (insert p r) s).

Definition new_ (init : M Resource) : M addr :=
  p ← allocate; r ← init; construct_at p r;; mret p.

(** [delete p]: nothing for [nullptr], a release for a live allocation,
    undefined behaviour otherwise (double delete). *)
Definition delete_ (p : option addr) : M unit :=
  match p with
  | None => mret tt
  | Some a => λ s,
      match heap s !! a with
      | Some _ => Normal tt
          (mkState (delete a (heap s)) (owners s) (next_addr s) (a :: released s) (faults s))
      | None => Undefined
      end
  end.

(** [std::move] is a cast: it names the same object. *)
Definition std_move {A} (x : A) : A := x.

(** ** class Resource *)

(** [explicit Resource( int i )] *)
Definition Resource_ctor (i : Z) : M Resource := mret (mkResource i).

(** [Resource( Resource const& other ) : i_{ other.i_ }] *)
Definition Resource_copy_ctor (other : addr) : M Resource :=
  r ← deref other; mret (mkResource (i_ r)).

(** [Resource& operator=( Resource const& other )] *)
Definition Resource_copy_assign (this other : addr) : M addr :=
  r ← deref other; store this (mkResource (i_ r));; mret this.

(** [Resource( Resource&& other ) : i_{ std::move(other.i_) }] *)
Definition Resource_move_ctor (other : addr) : M Resource :=
  r ← deref (std_move other); mret (mkResource (i_ r)).

(** [Resource& operator=( Resource&& other )] *)
Definition Resource_move_assign (this other : addr) : M addr :=
  r ← deref (std_move other); store this (mkResource (i_ r));; mret this.

(** [int get() const] and [void set( int i )] *)
Definition Resource_get (this : addr) : M Z :=
  r ← deref this; mret (i_ r).

Definition Resource_set (this : addr) (i : Z) : M unit :=
  store this (mkResource i).

(** ** std::string moves

    The C++ standard leaves a moved-from [std::string] in a valid but
    unspecified state.  The development is parametric in what the library
    leaves behind. *)
Class StdStringMoves := {
  (* the source after [std::string dst{ std::move(src) }] *)
  moved_from : string → string;
  (* the source after [dst = std::move(src)], given the old [dst] and [src] *)
  move_assigned_from : string → string → string;
  (* the string after [s = std::move(s)] *)
  self_move_assigned : string → string
}.

(** The behaviour of the common implementations: a moved-from string is
    left empty. *)
Definition clearing_moves : StdStringMoves :=
  {| moved_from := λ _, "";
     move_assigned_from := λ _ _, "";
     self_move_assigned := λ _, "" |}.

(** ** class ResourceOwner *)

Section ResourceOwner.
Context `{!StdStringMoves}.

(** [ResourceOwner( int id, std::string const& name, Resource* resource )]:
    takes over the pointer it is given. *)
Definition ResourceOwner_ctor (this : obj) (id : Z) (name : string)
    (resource : option addr) : M unit :=
  begin_lifetime this (mkOwner id name resource).

(** [~ResourceOwner() { delete m_resource; }] *)
Definition ResourceOwner_dtor (this : obj) : M unit :=
  p ← field this m_resource;
  delete_ p;;
  end_lifetime this.

(** [ResourceOwner( ResourceOwner const& other )]: [m_id] and [m_name] are
    copied in the member initialiser list, [m_resource] gets its default
    member initialiser [nullptr], and the body allocates the copy. *)
Definition ResourceOwner_copy_ctor (this other : obj) : M unit :=
  i ← field other m_id;
  n ← field other m_name;
  begin_lifetime this (mkOwner i n None);;
  unwinding this (
    q ← field other m_resource;
    match q with
    | Some q => p ← new_ (Resource_copy_ctor q); assign this (set_m_resource (Some p))
    | None => mret tt
    end).

(** [ResourceOwner& operator=( ResourceOwner const& other )], the manual
    solution; the result is [this]. *)
Definition ResourceOwner_copy_assign (this other : obj) : M obj :=
  (if decide (this ≠ other) then
     i ← field other m_id; assign this (set_m_id i);;
     n ← field other m_name; assign this (set_m_name n);;
     p ← field this m_resource;
     q ← field other m_resource;
     match p, q with
     | Some p, Some q => Resource_copy_assign p q;; mret tt
     | _, _ =>
         delete_ p;;
         assign this (set_m_resource None);;
         q' ← field other m_resource;
         match q' with
         | Some q' => r ← new_ (Resource_copy_ctor q'); assign this (set_m_resource (Some r))
         | None => mret tt
         end
     end
   else mret tt);;
  mret this.

(** [ResourceOwner( ResourceOwner&& other ) noexcept] *)
Definition ResourceOwner_move_ctor (this other : obj) : M unit :=
  i ← field other m_id;
  n ← field (std_move other) m_name;
  assign other (set_m_name (moved_from n));;
  q ← field other m_resource;
  begin_lifetime this (mkOwner i n q);;
  assign other (set_m_resource None).

(** [m_name = std::move(other.m_name)] *)
Definition string_move_assign (this other : obj) : M unit :=
  d ← field this m_name;
  n ← field (std_move other) m_name;
  if decide (this = other) then assign this (set_m_name (self_move_assigned n))
  else assign this (set_m_name n);; assign other (set_m_name (move_assigned_from d n)).

(** [ResourceOwner& operator=( ResourceOwner&& other ) noexcept], the manual
    solution: no test for [this == &other]. *)
Definition ResourceOwner_move_assign (this other : obj) : M obj :=
  p ← field this m_resource; delete_ p;;
  i ← field other m_id; assign this (set_m_id i);;
  string_move_assign this other;;
  q ← field other m_resource; assign this (set_m_resource q);;
  assign other (set_m_resource None);;
  mret this.

(** [std::swap] on one data member of two objects. *)
Definition std_swap {A} (get : ResourceOwner → A)
    (set : A → ResourceOwner → ResourceOwner) (x y : obj) : M unit :=
  a ← field x get;
  b ← field y get;
  assign x (set b);;
  assign y (set a).

(** [void swap( ResourceOwner& other ) noexcept] *)
Definition ResourceOwner_swap (this other : obj) : M unit :=
  std_swap m_id set_m_id this other;;
  std_swap m_name set_m_name this other;;
  std_swap m_resource set_m_resource this other.

(** Accessors [id()], [name()], [resource()]. *)
Definition id (this : obj) : M Z := field this m_id.
Definition name (this : obj) : M string := field this m_name.
Definition resource (this : obj) : M (option addr) := field this m_resource.

(** The free function [void swap( ResourceOwner& a, ResourceOwner& b )]. *)
Definition swap (a b : obj) : M unit := ResourceOwner_swap a b.

(** [owner.resource()->get()] and [owner.resource()->set(i)]: through a null
    handle they are undefined. *)
Definition resource_get (o : obj) : M Z :=
  p ← resource o;
  match p with Some p => Resource_get p | None => λ _, Undefined end.

Definition resource_set (o : obj) (i : Z) : M unit :=
  p ← resource o;
  match p with Some p => Resource_set p i | None => λ _, Undefined end.

End ResourceOwner.

(** ** The driver [main]

    The four printed lines become four observations: id, name, the value
    [resource()->get()] and the handle [resource()]. *)

Definition owner1 : obj := 1%nat.
Definition owner2 : obj := 2%nat.
Definition owner3 : obj := 3%nat.

Definition Observation : Type := Z * string * Z * option addr.

Section Main.
Context `{!StdStringMoves}.

Definition observe (o : obj) : M Observation :=
  i ← id o; n ← name o; v ← resource_get o; p ← resource o;
  mret (i, n, v, p).

Definition main : M (list Observation) :=
  p ← new_ (Resource_ctor 101);
  ResourceOwner_ctor owner1 1 "id1" (Some p);;
  o1 ← observe owner1;
  ResourceOwner_copy_ctor owner2 owner1;;
  o2 ← observe owner2;
  resource_set owner1 202;;
  ResourceOwner_copy_assign owner2 owner1;;
  o3 ← observe owner2;
  resource_set owner1 303;;
  ResourceOwner_move_ctor owner3 (std_move owner1);;
  o4 ← observe owner3;
  resource_set owner2 404;;
  ResourceOwner_move_assign owner1 (std_move owner2);;
  o5 ← observe owner1;
  (* the automatic objects are destroyed in reverse order of declaration *)
  ResourceOwner_dtor owner3;;
  ResourceOwner_dtor owner2;;
  ResourceOwner_dtor owner1;;
  mret [o1; o2; o3; o4; o5].

End Main.

(** The state in which a program starts. *)
Definition initial_state : State := mkState ∅ ∅ 0%nat [] [].

(** ** Ownership discipline *)

(** The handle of the object [o]: [None] when [o] is not alive or holds
    [nullptr]. *)
Definition handle (s : State) (o : obj) : option addr :=
  w ← owners s !! o; m_resource w.

(** A pointer value that [delete] accepts: null, or a live allocation. *)
Definition live (s : State) (p : option addr) : Prop :=
  match p with
  | Some a => is_Some (heap s !! a)
  | None => True
  end.

(** The state after a successful [delete p]. *)
Definition release (p : option addr) (s : State) : State :=
  match p with
  | None => s
  | Some a =>
      mkState (delete a (heap s)) (owners s) (next_addr s) (a :: released s) (faults s)
  end.

(** Well-formed states: handles and live allocations are in one-to-one
    correspondence, and the release log records every allocation that is no
    longer live, once. *)
Record wf (s : State) : Prop := mkWf {
  wf_live : ∀ o a, handle s o = Some a → is_Some (heap s !! a);
  wf_unique : ∀ o1 o2 a, handle s o1 = Some a → handle s o2 = Some a → o1 = o2;
  wf_owned : ∀ a, is_Some (heap s !! a) → ∃ o, handle s o = Some a;
  wf_log_nodup : NoDup (released s);
  wf_log_dead : ∀ a, a ∈ released s → heap s !! a = None;
  wf_allocated : ∀ a, (a < next_addr s)%nat ↔ is_Some (heap s !! a) ∨ a ∈ released s
}.

(** The allocator grants the next request. *)
Definition grants (s : State) : Prop := head (faults s) ≠ Some true.

(** Sequences of operations on the objects that are alive. *)
Inductive Op : Type :=
  | CopyConstruct (this other : obj)
  | MoveConstruct (this other : obj)
  | CopyAssign (this other : obj)
  | MoveAssign (this other : obj)
  | Swap (a b : obj).

Inductive RunResult : Type :=
  | Finished (s : State)
  | IllScoped       (* names an object that is not alive, or constructs over one *)
  | MemoryError.    (* an operation ran into undefined behaviour *)

Definition alive (s : State) (o : obj) : bool := bool_decide (is_Some (owners s !! o)).

Definition in_scope (op : Op) (s : State) : bool :=
  match op with
  | CopyConstruct this other | MoveConstruct this other =>
      negb (alive s this) && alive s other
  | CopyAssign this other | MoveAssign this other | Swap this other =>
      alive s this && alive s other
  end.

Section Runs.
Context `{!StdStringMoves}.

Definition exec_op (op : Op) : M unit :=
  match op with
  | CopyConstruct this other => ResourceOwner_copy_ctor this other
  | MoveConstruct this other => ResourceOwner_move_ctor this (std_move other)
  | CopyAssign this other => ResourceOwner_copy_assign this other;; mret tt
  | MoveAssign this other => ResourceOwner_move_assign this (std_move other);; mret tt
  | Swap a b => swap a b
  end.

(** A [std::bad_alloc] is caught by the caller, who carries on. *)
Fixpoint run (ops : list Op) (s : State) : RunResult :=
  match ops with
  | [] => Finished s
  | op :: ops' =>
      if in_scope op s then
        match exec_op op s with
        | Normal _ s' | Throws s' => run ops' s'
        | Undefined => MemoryError
        end
      else IllScoped
  end.

Fixpoint destroy_all (order : list obj) : M unit :=
  match order with
  | [] => mret tt
  | o :: order' => ResourceOwner_dtor o;; destroy_all order'
  end.

End Runs.

(** States used as concrete inputs. *)

(** After [ResourceOwner owner1( 1, "id1", new Resource(101) )]. *)
Definition demo_state : State :=
  mkState {[ 0%nat := mkResource 101 ]}
          {[ owner1 := mkOwner 1 "id1" (Some 0%nat) ]} 1%nat [] [].

(** Two owners, [owner2] without a resource, and an allocator about to
    refuse. *)
Definition oom_state : State :=
  mkState {[ 0%nat := mkResource 101 ]}
          (<[ owner2 := mkOwner 2 "id2" None ]> {[ owner1 := mkOwner 1 "id1" (Some 0%nat) ]})
          1%nat [] [true].

(** Two owners with a resource each. *)
Definition pair_state : State :=
  mkState (<[ 1%nat := mkResource 202 ]> {[ 0%nat := mkResource 101 ]})
          (<[ owner2 := mkOwner 2 "id2" (Some 1%nat) ]>
             {[ owner1 := mkOwner 1 "id1" (Some 0%nat) ]})
          2%nat [] [].

(** [oom_state] after the failed [owner2 = owner1]. *)
Definition oom_after : State :=
  mkState {[ 0%nat := mkResource 101 ]}
          (<[ owner2 := mkOwner 1 "id1" None ]>
             (<[ owner2 := mkOwner 2 "id2" None ]>
                {[ owner1 := mkOwner 1 "id1" (Some 0%nat) ]}))
          1%nat [] [].

(** The operations of [main] on [owner1], followed by a swap, a self-move
    and a self-copy. *)
Definition demo_ops : list Op :=
  [ CopyConstruct owner2 owner1; CopyAssign owner2 owner1;
    MoveConstruct owner3 owner1; MoveAssign owner1 owner2;
    Swap owner1 owner3; MoveAssign owner3 owner3; CopyAssign owner1 owner1 ].

(** ** Further notions used by the properties of the remaining code *)


(** The allocator grants the next [n] requests. *)
Definition grants_next (n : nat) (s : State) : Prop :=
  ∀ i, (i < n)%nat → faults s !! i ≠ Some true.

(** What [noexcept] promises, and a little more: the computation never
    throws, and when it returns it has not called the allocator. *)
Definition noexcept {A} (m : M A) : Prop :=
  ∀ s, match m s with
       | Normal _ s' => next_addr s' = next_addr s ∧ faults s' = faults s
       | Throws _ => False
       | Undefined => True
       end.

(** A state with an unrelated object that owns a resource, and an allocator
    that refuses its third request. *)
Definition busy_state : State :=
  mkState {[ 0%nat := mkResource 55 ]}
          {[ 7%nat := mkOwner 7 "other" (Some 0%nat) ]}
          1%nat [] [false; false; true].

(** The state that [demo_ops] reaches from [demo_state] when moved-from
    strings are left empty. *)
Definition demo_final : State :=
  mkState {[ 0%nat := mkResource 101 ]}
          (<[ owner3 := mkOwner 1 "" None ]>
             (<[ owner2 := mkOwner 1 "" None ]>
                {[ owner1 := mkOwner 1 "id1" (Some 0%nat) ]}))
          2%nat [1%nat] [].

(** * Proofs *)

(** ** Symbolic execution of member functions *)

Lemma bind_unfold {A B} (m : M A) (f : A → M B) s :
  (m ≫= f) s =
  match m s with
  | Normal a s' => f a s'
  | Throws s' => Throws s'
  | Undefined => Undefined
  end.
Proof. reflexivity. Qed.

Lemma field_Some {A} o (f : ResourceOwner → A) s w :
  owners s !! o = Some w → field o f s = Normal (f w) s.
Proof. unfold field. by intros ->. Qed.

Lemma assign_Some o u s w :
  owners s !! o = Some w →
  assign o u s = Normal tt (with_owners (insert o (u w)) s).
Proof. unfold assign. by intros ->. Qed.

Lemma begin_lifetime_None o w s :
  owners s !! o = None →
  begin_lifetime o w s = Normal tt (with_owners (insert o w) s).
Proof. unfold begin_lifetime. by intros ->. Qed.

Lemma end_lifetime_Some o s w :
  owners s !! o = Some w →
  end_lifetime o s = Normal tt (with_owners (delete o) s).
Proof. unfold end_lifetime. by intros ->. Qed.

Lemma delete_live p s : live s p → delete_ p s = Normal tt (release p s).
Proof. destruct p as [a|]; simpl; [|done]. by intros [r ->]. Qed.

Lemma deref_Some p s r : heap s !! p = Some r → deref p s = Normal r s.
Proof. unfold deref. by intros ->. Qed.

Lemma store_Some p r s r0 :
  heap s !! p = Some r0 → store p r s = Normal tt (with_heap (insert p r) s).
Proof. unfold store. by intros ->. Qed.

Lemma allocate_grants s :
  grants s →
  allocate s = Normal (next_addr s)
    (mkState (heap s) (owners s) (S (next_addr s)) (released s) (tail (faults s))).
Proof.
  unfold grants, allocate. destruct (faults s) as [|[] fs]; simpl; congruence.
Qed.

Lemma allocate_refuses s fs :
  faults s = true :: fs →
  allocate s = Throws (mkState (heap s) (owners s) (next_addr s) (released s) fs).
Proof. unfold allocate. by intros ->. Qed.

Lemma owners_release p s : owners (release p s) = owners s.
Proof. by destruct p. Qed.

Lemma next_addr_release p s : next_addr (release p s) = next_addr s.
Proof. by destruct p. Qed.

Lemma eta_Resource r : mkResource (i_ r) = r.
Proof. by destruct r. Qed.

Ltac unfold_ops :=
  unfold exec_op, swap, ResourceOwner_move_assign, ResourceOwner_copy_assign,
    ResourceOwner_swap, std_swap, ResourceOwner_move_ctor, ResourceOwner_copy_ctor,
    ResourceOwner_dtor, ResourceOwner_ctor, string_move_assign, new_,
    Resource_copy_ctor, Resource_copy_assign, Resource_move_ctor,
    Resource_move_assign, Resource_get, Resource_set, resource_get, resource_set,
    resource, id, name, construct_at, unwinding, std_move.

Ltac side :=
  cbn [owners heap with_owners with_heap];
  rewrite ?owners_release; simplify_map_eq; done.

Ltac mstep :=
  rewrite ?bind_unfold;
  first [ erewrite field_Some by side
        | erewrite assign_Some by side
        | erewrite begin_lifetime_None by side
        | erewrite end_lifetime_Some by side
        | erewrite deref_Some by side
        | erewrite store_Some by side
        | rewrite delete_live by (first [done | cbn; done])
        | rewrite allocate_grants by done
        | erewrite allocate_refuses by eassumption
        | rewrite decide_False by done
        | rewrite decide_True by done ];
  cbn beta iota.

Ltac mrun := unfold_ops; repeat mstep.

(* the same, also reading the fields of records that are known *)
Ltac mobs :=
  repeat first [ progress unfold_ops | mstep
               | progress (cbn [m_resource m_id m_name i_]) ].

(** Two states are equal when their components are; maps are compared by
    lookup. *)
Ltac map_cases :=
  apply map_eq; intros ?k;
  repeat match goal with
  | |- context [ <[?i:=_]> _ !! ?k ] =>
      destruct (decide (i = k)); [subst; rewrite lookup_insert_eq | rewrite lookup_insert_ne by done]
  | |- context [ delete ?i _ !! ?k ] =>
      destruct (decide (i = k)); [subst; rewrite lookup_delete_eq | rewrite lookup_delete_ne by done]
  end; try (unfold set_m_id, set_m_name, set_m_resource in *; cbn in *; congruence).

(** ** What each member function does to the state *)

Section Effects.
Context `{!StdStringMoves}.

Lemma dtor_effect s this w :
  owners s !! this = Some w → live s (m_resource w) →
  ResourceOwner_dtor this s =
  Normal tt (with_owners (delete this) (release (m_resource w) s)).
Proof. intros Ht Hl. by mrun. Qed.

Lemma swap_effect s a b wa wb :
  owners s !! a = Some wa → owners s !! b = Some wb →
  ResourceOwner_swap a b s =
  Normal tt (with_owners (λ m, <[b := wa]> (<[a := wb]> m)) s).
Proof.
  intros Ha Hb. destruct (decide (a = b)) as [->|Hne].
  - assert (wb = wa) as -> by congruence. mrun.
    unfold mret, M_ret. f_equal. destruct s, wa as [i n r]; unfold with_owners; cbn.
    f_equal. map_cases.
  - mrun. unfold mret, M_ret. f_equal.
    destruct s, wa as [i n r], wb as [i' n' r']; unfold with_owners; cbn.
    f_equal. map_cases.
Qed.

Lemma move_ctor_effect s this other wo :
  owners s !! this = None → owners s !! other = Some wo →
  ResourceOwner_move_ctor this other s =
  Normal tt (with_owners (λ m,
    <[other := mkOwner (m_id wo) (moved_from (m_name wo)) None]>
      (<[this := mkOwner (m_id wo) (m_name wo) (m_resource wo)]> m)) s).
Proof.
  intros Ht Ho. assert (this ≠ other) by congruence. mrun.
  f_equal. destruct s, wo; unfold with_owners; cbn. f_equal. map_cases.
Qed.

Lemma move_assign_effect s this other wt wo :
  owners s !! this = Some wt → owners s !! other = Some wo → this ≠ other →
  live s (m_resource wt) →
  ResourceOwner_move_assign this other s =
  Normal this (with_owners (λ m,
    <[other := mkOwner (m_id wo) (move_assigned_from (m_name wt) (m_name wo)) None]>
      (<[this := mkOwner (m_id wo) (m_name wo) (m_resource wo)]> m))
    (release (m_resource wt) s)).
Proof.
  intros Ht Ho Hne Hl. mrun. unfold mret, M_ret. f_equal.
  destruct wt as [i n [p|]], wo as [i' n' r']; destruct s; unfold with_owners; cbn;
    f_equal; map_cases.
Qed.

Lemma move_assign_self_effect s this wt :
  owners s !! this = Some wt → live s (m_resource wt) →
  ResourceOwner_move_assign this this s =
  Normal this (with_owners
    (insert this (mkOwner (m_id wt) (self_move_assigned (m_name wt)) None))
    (release (m_resource wt) s)).
Proof.
  intros Ht Hl. mrun. unfold mret, M_ret. f_equal.
  destruct wt as [i n [p|]]; destruct s; unfold with_owners; cbn;
    f_equal; map_cases.
Qed.

Lemma copy_ctor_null_effect s this other wo :
  owners s !! this = None → owners s !! other = Some wo → m_resource wo = None →
  ResourceOwner_copy_ctor this other s =
  Normal tt (with_owners (insert this (mkOwner (m_id wo) (m_name wo) None)) s).
Proof.
  intros Ht Ho Hr. assert (this ≠ other) by congruence. mrun. by rewrite Hr.
Qed.

Lemma copy_ctor_effect s this other wo q v :
  owners s !! this = None → owners s !! other = Some wo →
  m_resource wo = Some q → heap s !! q = Some v → grants s →
  ResourceOwner_copy_ctor this other s =
  Normal tt (mkState (<[next_addr s := v]> (heap s))
    (<[this := mkOwner (m_id wo) (m_name wo) (Some (next_addr s))]> (owners s))
    (S (next_addr s)) (released s) (tail (faults s))).
Proof.
  intros Ht Ho Hr Hq Hg. assert (this ≠ other) by congruence. mrun. rewrite Hr.
  repeat mstep. unfold mret, M_ret. repeat mstep. rewrite eta_Resource.
  f_equal. destruct s; unfold with_owners, with_heap; cbn. f_equal. map_cases.
Qed.

Lemma copy_ctor_throws s this other wo q fs :
  owners s !! this = None → owners s !! other = Some wo →
  m_resource wo = Some q → faults s = true :: fs →
  ResourceOwner_copy_ctor this other s =
  Throws (mkState (heap s) (owners s) (next_addr s) (released s) fs).
Proof.
  intros Ht Ho Hr Hf. assert (this ≠ other) by congruence. mrun. rewrite Hr.
  repeat mstep. f_equal. destruct s; unfold with_owners; cbn in *. f_equal.
  map_cases.
Qed.

Lemma copy_assign_both_effect s this other wt wo p q v0 v :
  owners s !! this = Some wt → owners s !! other = Some wo → this ≠ other →
  m_resource wt = Some p → m_resource wo = Some q →
  heap s !! p = Some v0 → heap s !! q = Some v →
  ResourceOwner_copy_assign this other s =
  Normal this (mkState (<[p := v]> (heap s))
    (<[this := mkOwner (m_id wo) (m_name wo) (Some p)]> (owners s))
    (next_addr s) (released s) (faults s)).
Proof.
  intros Ht Ho Hne Hp Hq Hv0 Hv. mrun. cbn. rewrite Hp, Hq.
  repeat mstep. unfold mret, M_ret. repeat mstep. rewrite eta_Resource.
  f_equal. destruct s; unfold with_owners, with_heap; cbn. f_equal.
  map_cases.
Qed.

Lemma copy_assign_null_effect s this other wt wo :
  owners s !! this = Some wt → owners s !! other = Some wo → this ≠ other →
  m_resource wo = None → live s (m_resource wt) →
  ResourceOwner_copy_assign this other s =
  Normal this (with_owners (insert this (mkOwner (m_id wo) (m_name wo) None))
    (release (m_resource wt) s)).
Proof.
  intros Ht Ho Hne Hq Hl. mrun. cbn. rewrite Hq.
  destruct (m_resource wt) as [p|] eqn:Hp.
  - repeat mstep. rewrite Hq. unfold mret, M_ret. repeat mstep. f_equal.
    destruct s; unfold with_owners; cbn. f_equal. map_cases.
  - unfold mret, M_ret. repeat mstep. rewrite Hq. repeat mstep. f_equal.
    destruct s; unfold with_owners; cbn. f_equal. map_cases.
Qed.

Lemma copy_assign_alloc_effect s this other wt wo q v :
  owners s !! this = Some wt → owners s !! other = Some wo → this ≠ other →
  m_resource wt = None → m_resource wo = Some q → heap s !! q = Some v →
  grants s →
  ResourceOwner_copy_assign this other s =
  Normal this (mkState (<[next_addr s := v]> (heap s))
    (<[this := mkOwner (m_id wo) (m_name wo) (Some (next_addr s))]> (owners s))
    (S (next_addr s)) (released s) (tail (faults s))).
Proof.
  intros Ht Ho Hne Hp Hq Hv Hg. mrun. cbn. rewrite Hp.
  unfold mret, M_ret. repeat mstep. rewrite Hq. repeat mstep.
  rewrite eta_Resource. f_equal.
  destruct s; unfold with_owners, with_heap; cbn. f_equal. map_cases.
Qed.

Lemma copy_assign_throws s this other wt wo q fs :
  owners s !! this = Some wt → owners s !! other = Some wo → this ≠ other →
  m_resource wt = None → m_resource wo = Some q → faults s = true :: fs →
  ResourceOwner_copy_assign this other s =
  Throws (mkState (heap s)
    (<[this := mkOwner (m_id wo) (m_name wo) None]> (owners s))
    (next_addr s) (released s) fs).
Proof.
  intros Ht Ho Hne Hp Hq Hf. mrun. cbn. rewrite Hp.
  unfold mret, M_ret. repeat mstep. rewrite Hq. repeat mstep. f_equal.
  destruct s; unfold with_owners; cbn in *. f_equal. map_cases.
Qed.

End Effects.

(** ** The ownership invariant *)

Lemma handle_lookup s o w : owners s !! o = Some w → handle s o = m_resource w.
Proof. unfold handle. by intros ->. Qed.

Lemma handle_absent s o : owners s !! o = None → handle s o = None.
Proof. unfold handle. by intros ->. Qed.

Lemma wf_handle_live s o w : wf s → owners s !! o = Some w → live s (m_resource w).
Proof.
  intros Hwf Ho. destruct (m_resource w) as [a|] eqn:Hr; [|done].
  apply (wf_live s Hwf o). by rewrite (handle_lookup s o w).
Qed.

Lemma wf_fresh s : wf s → heap s !! next_addr s = None.
Proof.
  intros Hwf. apply eq_None_not_Some. intros Hs.
  assert (next_addr s < next_addr s)%nat; [|lia].
  apply (wf_allocated s Hwf). by left.
Qed.

(** The handles and the set of live allocations are all that the invariant
    looks at. *)
Lemma wf_same s s' :
  wf s →
  (∀ k, handle s' k = handle s k) →
  (∀ a, is_Some (heap s' !! a) ↔ is_Some (heap s !! a)) →
  released s' = released s → next_addr s' = next_addr s →
  wf s'.
Proof.
  intros [L U O N D A] Hh Hm Hr Hn. split.
  - intros o a. rewrite Hh, Hm. apply L.
  - intros o1 o2 a. rewrite !Hh. apply U.
  - intros a. rewrite Hm. intros [o Ho]%O. exists o. by rewrite Hh.
  - by rewrite Hr.
  - intros a. rewrite Hr, eq_None_not_Some, Hm, <-eq_None_not_Some. apply D.
  - intros a. by rewrite Hn, Hr, Hm.
Qed.

(** A handle moves from [other] to [this], which held none. *)
Lemma wf_transfer s s' this other :
  wf s → handle s this = None →
  (∀ k, handle s' k =
        if decide (k = other) then None
        else if decide (k = this) then handle s other else handle s k) →
  (∀ a, is_Some (heap s' !! a) ↔ is_Some (heap s !! a)) →
  released s' = released s → next_addr s' = next_addr s →
  wf s'.
Proof.
  intros [L U O N D A] Ht Hh Hm Hr Hn. split.
  - intros o a. rewrite Hh, Hm. repeat case_decide; try done; apply L.
  - intros o1 o2 a. rewrite !Hh. repeat case_decide; subst; try done;
      intros Hx Hy; pose proof (U _ _ _ Hx Hy); congruence.
  - intros a. rewrite Hm. intros [o Ho]%O.
    destruct (decide (o = other)) as [->|].
    + exists this. rewrite Hh. repeat case_decide; congruence.
    + exists o. rewrite Hh. repeat case_decide; congruence.
  - by rewrite Hr.
  - intros a. rewrite Hr, eq_None_not_Some, Hm, <-eq_None_not_Some. apply D.
  - intros a. by rewrite Hn, Hr, Hm.
Qed.

(** The allocation behind the handle of [o] is released. *)
Lemma wf_release s s' o a :
  wf s → handle s o = Some a →
  (∀ k, handle s' k = if decide (k = o) then None else handle s k) →
  (∀ b, is_Some (heap s' !! b) ↔ b ≠ a ∧ is_Some (heap s !! b)) →
  released s' = a :: released s → next_addr s' = next_addr s →
  wf s'.
Proof.
  intros [L U O N D A] Ho Hh Hm Hr Hn. split.
  - intros k b. rewrite Hh, Hm. case_decide; [done|]. intros Hk. split; [|by eapply L].
    intros ->. by pose proof (U _ _ _ Hk Ho).
  - intros o1 o2 b. rewrite !Hh. repeat case_decide; try done. apply U.
  - intros b. rewrite Hm. intros [Hb [k Hk]%O]. exists k. rewrite Hh.
    case_decide; [congruence|done].
  - rewrite Hr. constructor; [|done]. intros Hin%D.
    apply L in Ho. rewrite Hin in Ho. by destruct Ho.
  - intros b. rewrite Hr, eq_None_not_Some, Hm, elem_of_cons.
    intros [->|Hin%D]; [tauto|]. rewrite Hin. intros [_ [? ?]]. done.
  - intros b. rewrite Hn, Hr, Hm, A, elem_of_cons.
    apply L in Ho. destruct (decide (b = a)) as [->|]; tauto.
Qed.

(** A fresh allocation is handed to [o], which held none. *)
Lemma wf_alloc s s' o :
  wf s → handle s o = None →
  (∀ k, handle s' k = if decide (k = o) then Some (next_addr s) else handle s k) →
  (∀ b, is_Some (heap s' !! b) ↔ b = next_addr s ∨ is_Some (heap s !! b)) →
  released s' = released s → next_addr s' = S (next_addr s) →
  wf s'.
Proof.
  intros Hwf Ho Hh Hm Hr Hn. pose proof (wf_fresh s Hwf) as Hfresh.
  destruct Hwf as [L U O N D A]. split.
  - intros k b. rewrite Hh, Hm. case_decide; [intros [= <-]; by left|].
    intros ?%L. by right.
  - intros o1 o2 b. rewrite !Hh. repeat case_decide; subst; try done.
    + intros [= <-] Hy%L. rewrite Hfresh in Hy. by destruct Hy.
    + intros Hx%L [= <-]. rewrite Hfresh in Hx. by destruct Hx.
    + apply U.
  - intros b. rewrite Hm. intros [->|[k Hk]%O].
    + exists o. rewrite Hh. by rewrite decide_True.
    + exists k. rewrite Hh. case_decide; [congruence|done].
  - by rewrite Hr.
  - intros b. rewrite Hr, eq_None_not_Some, Hm. intros Hin [->|Hb].
    + assert (next_addr s < next_addr s)%nat; [|lia]. apply A. by right.
    + rewrite (D _ Hin) in Hb. by destruct Hb.
  - intros b. rewrite Hn, Hr, Hm. specialize (A b).
    assert ((b < S (next_addr s))%nat ↔ b = next_addr s ∨ (b < next_addr s)%nat) by lia.
    tauto.
Qed.

(** Two objects exchange their handles. *)
Lemma wf_exchange s s' a b :
  wf s →
  (∀ k, handle s' k =
        if decide (k = b) then handle s a
        else if decide (k = a) then handle s b else handle s k) →
  (∀ x, is_Some (heap s' !! x) ↔ is_Some (heap s !! x)) →
  released s' = released s → next_addr s' = next_addr s →
  wf s'.
Proof.
  intros [L U O N D A] Hh Hm Hr Hn. split.
  - intros o x. rewrite Hh, Hm. repeat case_decide; apply L.
  - intros o1 o2 x. rewrite !Hh. repeat case_decide; subst; try done;
      intros Hx Hy; pose proof (U _ _ _ Hx Hy); congruence.
  - intros x. rewrite Hm. intros [o Ho]%O.
    destruct (decide (o = a)) as [->|]; [|destruct (decide (o = b)) as [->|]].
    + exists b. by rewrite Hh, decide_True.
    + destruct (decide (b = a)) as [->|].
      * exists a. by rewrite Hh, decide_True.
      * exists a. by rewrite Hh, decide_False, decide_True.
    + exists o. by rewrite Hh, !decide_False.
  - by rewrite Hr.
  - intros x. rewrite Hr, eq_None_not_Some, Hm, <-eq_None_not_Some. apply D.
  - intros x. by rewrite Hn, Hr, Hm.
Qed.

(** ** Every member function preserves the invariant *)

Ltac handle_eq :=
  let k := fresh "k" in
  intros k; unfold handle; cbn [owners with_owners with_heap];
  rewrite ?owners_release;
  repeat case_decide; subst; simplify_map_eq; try done.

Ltac handle_eq_at o :=
  let k := fresh "k" in
  intros k; unfold handle; cbn [owners with_owners with_heap];
  destruct (decide (k = o)) as [->|];
  [rewrite lookup_insert_eq | rewrite lookup_insert_ne by done];
  simplify_option_eq; try done; try congruence.

(** The object [o] gives up its handle: the allocation is released and the
    new owners [f] leave [o] without one. *)
Lemma wf_drop s o w f :
  wf s → owners s !! o = Some w →
  (∀ k, handle (with_owners f s) k = if decide (k = o) then None else handle s k) →
  wf (with_owners f (release (m_resource w) s)).
Proof.
  intros Hwf Ho Hf. destruct (m_resource w) as [a|] eqn:Hr; cbn [release].
  - apply (wf_release s _ o a Hwf); try done.
    + by rewrite (handle_lookup s o w).
    + intros b. cbn. rewrite lookup_delete_is_Some. split; intros [? ?]; split; done.
  - apply (wf_same s _ Hwf); try done.
    intros k. rewrite Hf. case_decide; [subst|done].
    by rewrite (handle_lookup s o w).
Qed.

Lemma wf_dtor s this w :
  wf s → owners s !! this = Some w →
  wf (with_owners (delete this) (release (m_resource w) s)).
Proof. intros Hwf Ht. apply (wf_drop s this w _ Hwf Ht). handle_eq. Qed.

Lemma wf_reset s this w w' :
  wf s → owners s !! this = Some w → m_resource w' = None →
  wf (with_owners (insert this w') (release (m_resource w) s)).
Proof. intros Hwf Ht Hr. apply (wf_drop s this w _ Hwf Ht). handle_eq. Qed.

Lemma wf_move s this other wo wt' wo' :
  wf s → handle s this = None → owners s !! other = Some wo → this ≠ other →
  m_resource wt' = m_resource wo → m_resource wo' = None →
  wf (with_owners (λ m, <[other := wo']> (<[this := wt']> m)) s).
Proof.
  intros Hwf Ht Ho Hne Hrt Hro.
  apply (wf_transfer s _ this other Hwf); try done.
  handle_eq.
Qed.

Lemma wf_move_assign s this other wt wo wt' wo' :
  wf s → owners s !! this = Some wt → owners s !! other = Some wo → this ≠ other →
  m_resource wt' = m_resource wo → m_resource wo' = None →
  wf (with_owners (λ m, <[other := wo']> (<[this := wt']> m))
        (release (m_resource wt) s)).
Proof.
  intros Hwf Ht Ho Hne Hrt Hro.
  pose proof (wf_reset s this wt (set_m_resource None wt) Hwf Ht eq_refl) as Hwf1.
  set (s1 := with_owners (insert this (set_m_resource None wt))
               (release (m_resource wt) s)) in Hwf1.
  assert (handle s1 this = None) as H1.
  { unfold handle, s1; cbn. by rewrite lookup_insert_eq. }
  assert (owners s1 !! other = Some wo) as H2.
  { unfold s1; cbn. by rewrite owners_release, lookup_insert_ne. }
  apply (wf_same _ _ (wf_move s1 this other wo wt' wo' Hwf1 H1 H2 Hne Hrt Hro));
    try done.
  intros k. unfold handle, s1; cbn. by rewrite insert_insert_eq.
Qed.

Lemma wf_swap s a b wa wb :
  wf s → owners s !! a = Some wa → owners s !! b = Some wb →
  wf (with_owners (λ m, <[b := wa]> (<[a := wb]> m)) s).
Proof.
  intros Hwf Ha Hb. apply (wf_exchange s _ a b Hwf); try done. handle_eq.
Qed.

Lemma wf_new_object s this w :
  wf s → owners s !! this = None → m_resource w = None →
  wf (with_owners (insert this w) s).
Proof.
  intros Hwf Ht Hr. apply (wf_same s _ Hwf); try done. handle_eq_at this.
Qed.

Lemma wf_new_resource s this w v :
  wf s → handle s this = None → m_resource w = Some (next_addr s) →
  wf (mkState (<[next_addr s := v]> (heap s)) (<[this := w]> (owners s))
        (S (next_addr s)) (released s) (tail (faults s))).
Proof.
  intros Hwf Ht Hr. apply (wf_alloc s _ this Hwf); try done.
  - handle_eq.
  - intros b. cbn. rewrite lookup_insert_is_Some.
    destruct (decide (next_addr s = b)); intuition congruence.
Qed.

Lemma wf_faults s fs :
  wf s → wf (mkState (heap s) (owners s) (next_addr s) (released s) fs).
Proof. intros Hwf. by apply (wf_same s _ Hwf). Qed.

Lemma wf_value s this w w' p v :
  wf s → owners s !! this = Some w → m_resource w = Some p → m_resource w' = Some p →
  wf (mkState (<[p := v]> (heap s)) (<[this := w']> (owners s))
        (next_addr s) (released s) (faults s)).
Proof.
  intros Hwf Ht Hr Hr'. apply (wf_same s _ Hwf); try done.
  - handle_eq_at this.
  - intros a. cbn. rewrite lookup_insert_is_Some.
    pose proof (wf_handle_live s this w Hwf Ht) as Hl. rewrite Hr in Hl. cbn in Hl.
    destruct (decide (p = a)) as [->|]; intuition congruence.
Qed.

Lemma wf_failed_assign s this w w' fs :
  wf s → owners s !! this = Some w → m_resource w = None → m_resource w' = None →
  wf (mkState (heap s) (<[this := w']> (owners s)) (next_addr s) (released s) fs).
Proof.
  intros Hwf Ht Hr Hr'. apply (wf_same s _ Hwf); try done. handle_eq_at this.
Qed.

(** ** Operations on live objects of a well-formed state are defined *)

Lemma alloc_cases s : grants s ∨ ∃ fs, faults s = true :: fs.
Proof.
  unfold grants. destruct (faults s) as [|[] fs]; cbn; eauto; left; congruence.
Qed.

Lemma alive_true s o : alive s o = true ↔ is_Some (owners s !! o).
Proof. unfold alive. apply bool_decide_eq_true. Qed.

Lemma alive_false s o : alive s o = false ↔ owners s !! o = None.
Proof.
  unfold alive. rewrite bool_decide_eq_false. symmetry. apply eq_None_not_Some.
Qed.

Section Safety.
Context `{!StdStringMoves}.

Lemma copy_assign_self s this :
  ResourceOwner_copy_assign this this s = Normal this s.
Proof.
  unfold ResourceOwner_copy_assign. rewrite bind_unfold.
  by rewrite decide_False by (intros Hne; by apply Hne).
Qed.

Lemma copy_ctor_safe s this other wo :
  wf s → owners s !! this = None → owners s !! other = Some wo →
  ∃ s', wf s' ∧ (ResourceOwner_copy_ctor this other s = Normal tt s'
                 ∨ ResourceOwner_copy_ctor this other s = Throws s').
Proof.
  intros Hwf Ht Ho. destruct (m_resource wo) as [q|] eqn:Hq.
  - pose proof (wf_handle_live s other wo Hwf Ho) as Hl. rewrite Hq in Hl.
    destruct Hl as [v Hv]. destruct (alloc_cases s) as [Hg|[fs Hf]].
    + eexists. split; [|left; by eapply copy_ctor_effect].
      apply wf_new_resource; [done| by apply handle_absent | done].
    + eexists. split; [|right; by eapply copy_ctor_throws]. by apply wf_faults.
  - eexists. split; [|left; by eapply copy_ctor_null_effect].
    by apply wf_new_object.
Qed.

Lemma copy_assign_safe s this other wt wo :
  wf s → owners s !! this = Some wt → owners s !! other = Some wo →
  ∃ s', wf s' ∧ (ResourceOwner_copy_assign this other s = Normal this s'
                 ∨ ResourceOwner_copy_assign this other s = Throws s').
Proof.
  intros Hwf Ht Ho. destruct (decide (this = other)) as [->|Hne].
  { exists s. split; [done|left; apply copy_assign_self]. }
  pose proof (wf_handle_live s this wt Hwf Ht) as Hlt.
  pose proof (wf_handle_live s other wo Hwf Ho) as Hlo.
  destruct (m_resource wo) as [q|] eqn:Hq.
  - destruct Hlo as [v Hv]. destruct (m_resource wt) as [p|] eqn:Hp.
    + destruct Hlt as [v0 Hv0].
      eexists. split; [|left; by eapply copy_assign_both_effect].
      by eapply wf_value.
    + destruct (alloc_cases s) as [Hg|[fs Hf]].
      * eexists. split; [|left; by eapply copy_assign_alloc_effect].
        apply wf_new_resource; [done| |done]. by rewrite (handle_lookup s this wt).
      * eexists. split; [|right; by eapply copy_assign_throws].
        by eapply wf_failed_assign.
  - eexists. split; [|left; by eapply copy_assign_null_effect].
    by eapply wf_reset.
Qed.

Lemma move_ctor_safe s this other wo :
  wf s → owners s !! this = None → owners s !! other = Some wo →
  ∃ s', wf s' ∧ ResourceOwner_move_ctor this other s = Normal tt s'.
Proof.
  intros Hwf Ht Ho. eexists. split; [|by eapply move_ctor_effect].
  apply (wf_move s this other wo _ _ Hwf (handle_absent _ _ Ht) Ho);
    [congruence|done|done].
Qed.

Lemma move_assign_safe s this other wt wo :
  wf s → owners s !! this = Some wt → owners s !! other = Some wo →
  ∃ s', wf s' ∧ ResourceOwner_move_assign this other s = Normal this s'.
Proof.
  intros Hwf Ht Ho. pose proof (wf_handle_live s this wt Hwf Ht) as Hlt.
  destruct (decide (this = other)) as [->|Hne].
  - eexists. split; [|exact (move_assign_self_effect s other wt Ht Hlt)].
    by eapply wf_reset.
  - eexists. split; [|by eapply move_assign_effect]. by eapply wf_move_assign.
Qed.

Lemma swap_safe s a b wa wb :
  wf s → owners s !! a = Some wa → owners s !! b = Some wb →
  ∃ s', wf s' ∧ ResourceOwner_swap a b s = Normal tt s'.
Proof.
  intros Hwf Ha Hb. eexists. split; [|by eapply swap_effect]. by eapply wf_swap.
Qed.

Lemma dtor_safe s this w :
  wf s → owners s !! this = Some w →
  ∃ s', wf s' ∧ ResourceOwner_dtor this s = Normal tt s'
        ∧ owners s' = delete this (owners s) ∧ next_addr s' = next_addr s
        ∧ released s' = released (release (m_resource w) s).
Proof.
  intros Hwf Ht. eexists. split; [by eapply wf_dtor|].
  split; [eapply dtor_effect; [done|by eapply wf_handle_live]|].
  cbn. by rewrite owners_release, next_addr_release.
Qed.

Lemma exec_op_safe s op :
  wf s → in_scope op s = true →
  ∃ s', wf s' ∧ (exec_op op s = Normal tt s' ∨ exec_op op s = Throws s').
Proof.
  intros Hwf Hs. destruct op as [t o|t o|t o|t o|t o]; cbn in Hs;
    apply andb_true_iff in Hs as [Ht Ho]; apply alive_true in Ho as [wo Ho].
  - apply negb_true_iff, alive_false in Ht. by eapply copy_ctor_safe.
  - apply negb_true_iff, alive_false in Ht.
    destruct (move_ctor_safe s t o wo Hwf Ht Ho) as (s' & ? & ?). eauto.
  - apply alive_true in Ht as [wt Ht].
    destruct (copy_assign_safe s t o wt wo Hwf Ht Ho) as (s' & ? & [E|E]);
      exists s'; (split; [done|]); cbn; rewrite bind_unfold, E; eauto.
  - apply alive_true in Ht as [wt Ht].
    destruct (move_assign_safe s t o wt wo Hwf Ht Ho) as (s' & ? & E).
    exists s'. split; [done|]. left. cbn. unfold std_move. by rewrite bind_unfold, E.
  - apply alive_true in Ht as [wt Ht].
    destruct (swap_safe s t o wt wo Hwf Ht Ho) as (s' & ? & ?). eauto.
Qed.

Lemma run_safe ops s :
  wf s → run ops s ≠ MemoryError ∧ ∀ s1, run ops s = Finished s1 → wf s1.
Proof.
  revert s. induction ops as [|op ops IH]; intros s Hwf; cbn.
  - split; [done|]. by intros s1 [= <-].
  - destruct (in_scope op s) eqn:Hs; [|done].
    destruct (exec_op_safe s op Hwf Hs) as (s' & Hwf' & [E|E]); rewrite E;
      by apply IH.
Qed.

Lemma destroy_all_safe order s :
  wf s → NoDup order → (∀ o, o ∈ order ↔ is_Some (owners s !! o)) →
  ∃ s2, destroy_all order s = Normal tt s2 ∧ wf s2 ∧ owners s2 = ∅
        ∧ next_addr s2 = next_addr s.
Proof.
  revert s. induction order as [|o order IH]; intros s Hwf Hnd Hall; cbn.
  - exists s. split; [done|]. split; [done|]. split; [|done].
    apply map_eq. intros k. rewrite lookup_empty.
    apply eq_None_not_Some. rewrite <-Hall. apply not_elem_of_nil.
  - apply NoDup_cons in Hnd as [Hno Hnd].
    destruct (proj1 (Hall o)) as [w Hw]; [by left|].
    destruct (dtor_safe s o w Hwf Hw) as (s' & Hwf' & E & Hown & Hnext & _).
    destruct (IH s' Hwf' Hnd) as (s2 & E2 & ? & ? & Hnext2).
    + intros k. rewrite Hown, lookup_delete_is_Some, <-Hall, elem_of_cons.
      split; [intros Hk; split; [congruence|by right]|].
      intros [Hne [->|Hk]]; done.
    + exists s2. rewrite bind_unfold, E.
      split; [done|]. split; [done|]. split; [done|]. congruence.
Qed.

Lemma wf_all_destroyed s :
  wf s → owners s = ∅ →
  heap s = ∅ ∧ (∀ a, (a < next_addr s)%nat → count_occ Nat.eq_dec (released s) a = 1%nat).
Proof.
  intros Hwf Hown.
  assert (heap s = ∅) as Hheap.
  { apply map_eq. intros a. rewrite lookup_empty. apply eq_None_not_Some. intros [o Ho]%(wf_owned s Hwf).
    unfold handle in Ho. by rewrite Hown, lookup_empty in Ho. }
  split; [done|]. intros a [Hl|Hin]%(wf_allocated s Hwf).
  - rewrite Hheap, lookup_empty in Hl. by destruct Hl.
  - apply NoDup_count_occ'; [|by apply list_elem_of_In].
    apply NoDup_ListNoDup, (wf_log_nodup s Hwf).
Qed.

End Safety.

(** ** Concrete states *)

Lemma wf_initial_state : wf initial_state.
Proof.
  split; cbn.
  - intros o a. unfold handle; cbn. by rewrite lookup_empty.
  - intros o1 o2 a. unfold handle; cbn. by rewrite lookup_empty.
  - intros a. rewrite lookup_empty. by intros [? ?].
  - constructor.
  - intros a. by rewrite lookup_empty.
  - intros a. rewrite lookup_empty. split; [lia|].
    intros [[? ?]|Hin]; [done|]. by apply not_elem_of_nil in Hin.
Qed.

Lemma wf_demo_state : wf demo_state.
Proof.
  apply (wf_new_resource initial_state owner1 (mkOwner 1 "id1" (Some 0%nat))
           (mkResource 101) wf_initial_state); [|done].
  by apply handle_absent.
Qed.

Lemma wf_pair_state : wf pair_state.
Proof.
  apply (wf_new_resource demo_state owner2 (mkOwner 2 "id2" (Some 1%nat))
           (mkResource 202) wf_demo_state); [|done].
  by apply handle_absent.
Qed.

Lemma wf_oom_state : wf oom_state.
Proof.
  refine (wf_faults (with_owners (insert owner2 (mkOwner 2 "id2" None)) demo_state)
            [true] _).
  by apply wf_new_object; [apply wf_demo_state|..].
Qed.

(** * The claims *)

(** ** C10: moving a Resource is copying it *)

(** C10.  The move constructor and the move assignment operator of
    [Resource] are the copy constructor and the copy assignment operator:
    from a live donor [r] with payload [i_ v] they produce a Resource with
    that payload, and the donor keeps it, so that [get()] on the donor
    still returns [i_ v].  The assignment target [this] may be [r] itself. *)
Theorem Resource_move_is_copy s this r v :
  heap s !! r = Some v → is_Some (heap s !! this) →
  Resource_get r s = Normal (i_ v) s
  ∧ Resource_move_ctor r s = Resource_copy_ctor r s
  ∧ Resource_move_ctor r s = Normal (mkResource (i_ v)) s
  ∧ Resource_move_assign this r s = Resource_copy_assign this r s
  ∧ ∃ s', Resource_move_assign this r s = Normal this s'
          ∧ Resource_get this s' = Normal (i_ v) s'
          ∧ Resource_get r s' = Normal (i_ v) s'.
Proof.
  intros Hr [v0 Ht]. split; [by mrun|]. split; [done|]. split; [by mrun|].
  split; [done|]. eexists. split; [by mrun|].
  split.
  - mrun. done.
  - destruct (decide (r = this)) as [->|]; [assert (v0 = v) as -> by congruence|];
      mrun; done.
Qed.

Lemma Resource_move_is_copy_witness :
  Resource_move_ctor 0%nat pair_state = Normal (mkResource 101) pair_state
  ∧ Resource_move_assign 1%nat 0%nat pair_state
    = Resource_copy_assign 1%nat 0%nat pair_state.
Proof.
  destruct (Resource_move_is_copy pair_state 1%nat 0%nat (mkResource 101))
    as (_ & _ & Hc & Ha & _).
  - reflexivity.
  - by exists (mkResource 202).
  - split; [exact Hc|exact Ha].
Defined.

(** ** C6: self-copy-assignment *)

(** C6.  [A = A] returns [A] and leaves the whole state as it was, in every
    state: id, name, handle and resource value of [A] are unchanged, nothing
    is released (the release log is part of the state) and nothing is
    allocated (so are the heap and the allocation counter). *)
Theorem self_copy_assign_is_noop s A :
  ResourceOwner_copy_assign A A s = Normal A s.
Proof. apply copy_assign_self. Qed.

(** ** C9: swap *)

Lemma swap_never_throws s a b s' : ResourceOwner_swap a b s ≠ Throws s'.
Proof.
  destruct (owners s !! a) as [wa|] eqn:Ha.
  - destruct (owners s !! b) as [wb|] eqn:Hb.
    + by rewrite (swap_effect s a b wa wb).
    + unfold ResourceOwner_swap, std_swap, mbind, M_bind, field.
      rewrite Ha. cbn. by rewrite Hb.
  - unfold ResourceOwner_swap, std_swap, mbind, M_bind, field. by rewrite Ha.
Qed.

(** C9.  On two live objects (possibly the same one) [swap] returns
    normally with the two objects exchanged (id, name and handle), every
    other object, the heap, the allocation counter, the release log and the
    allocator untouched; a second [swap] restores the original state; the
    free function is the member function; and [swap] never throws, whatever
    the state. *)
Theorem swap_exchanges_and_undoes s a b wa wb :
  owners s !! a = Some wa → owners s !! b = Some wb →
  (∃ s1, ResourceOwner_swap a b s = Normal tt s1
     ∧ owners s1 !! a = Some wb ∧ owners s1 !! b = Some wa
     ∧ (∀ k, k ≠ a → k ≠ b → owners s1 !! k = owners s !! k)
     ∧ heap s1 = heap s ∧ next_addr s1 = next_addr s
     ∧ released s1 = released s ∧ faults s1 = faults s
     ∧ ResourceOwner_swap a b s1 = Normal tt s)
  ∧ swap a b = ResourceOwner_swap a b
  ∧ (∀ s0 x y s', ResourceOwner_swap x y s0 ≠ Throws s').
Proof.
  intros Ha Hb. split; [|split; [done|intros; apply swap_never_throws]].
  eexists. split; [by apply swap_effect|]. cbn.
  assert (<[b:=wa]> (<[a:=wb]> (owners s)) !! a = Some wb) as Ha'.
  { destruct (decide (a = b)) as [->|].
    - rewrite lookup_insert_eq. congruence.
    - by rewrite lookup_insert_ne, lookup_insert_eq. }
  split; [done|]. split; [by rewrite lookup_insert_eq|].
  split; [intros k ? ?; by rewrite !lookup_insert_ne|].
  repeat (split; [done|]).
  rewrite (swap_effect _ a b wb wa); [|done|by cbn; rewrite lookup_insert_eq].
  f_equal. destruct s; unfold with_owners; cbn in *. f_equal. map_cases.
Qed.

Lemma swap_exchanges_and_undoes_witness :
  ∃ s1, swap owner1 owner2 pair_state = Normal tt s1
        ∧ handle s1 owner1 = Some 1%nat ∧ handle s1 owner2 = Some 0%nat
        ∧ swap owner1 owner2 s1 = Normal tt pair_state.
Proof.
  destruct (swap_exchanges_and_undoes pair_state owner1 owner2
              (mkOwner 1 "id1" (Some 0%nat)) (mkOwner 2 "id2" (Some 1%nat)))
    as ((s1 & E & H1 & H2 & _ & _ & _ & _ & _ & E') & _ & _).
  - reflexivity.
  - reflexivity.
  - exists s1. split; [exact E|]. split; [by rewrite (handle_lookup _ _ _ H1)|].
    split; [by rewrite (handle_lookup _ _ _ H2)|exact E'].
Defined.

(** ** C2: the copy constructor makes a deep copy *)

Section Claims.
Context `{!StdStringMoves}.

(** C2.  Copy-constructing [B] from a live [A] copies id and name.  If [A]
    holds no resource, [B] holds none.  If [A] holds the resource [a] with
    value [v] and the allocator grants the request, [B] holds a different
    allocation [b] with value [v]; setting the value of [B] to any [x]
    leaves [A] at [v], and setting the value of [A] leaves [B] at [v]. *)
Theorem copy_ctor_deep_copy s A B wA :
  wf s → owners s !! A = Some wA → owners s !! B = None →
  match m_resource wA with
  | None =>
      ∃ s', ResourceOwner_copy_ctor B A s = Normal tt s'
        ∧ id B s' = Normal (m_id wA) s' ∧ name B s' = Normal (m_name wA) s'
        ∧ resource B s' = Normal None s'
  | Some a =>
      grants s →
      ∃ s' b v, heap s !! a = Some (mkResource v)
        ∧ ResourceOwner_copy_ctor B A s = Normal tt s'
        ∧ id B s' = Normal (m_id wA) s' ∧ name B s' = Normal (m_name wA) s'
        ∧ resource A s' = Normal (Some a) s'
        ∧ resource B s' = Normal (Some b) s'
        ∧ b ≠ a
        ∧ resource_get A s' = Normal v s'
        ∧ resource_get B s' = Normal v s'
        ∧ (∀ x, ∃ s'', resource_set B x s' = Normal tt s''
                  ∧ resource_get B s'' = Normal x s''
                  ∧ resource_get A s'' = Normal v s'')
        ∧ (∀ x, ∃ s'', resource_set A x s' = Normal tt s''
                  ∧ resource_get A s'' = Normal x s''
                  ∧ resource_get B s'' = Normal v s'')
  end.
Proof.
  intros Hwf HA HB. assert (A ≠ B) as Hne by congruence.
  destruct (m_resource wA) as [a|] eqn:Hr.
  - intros Hg. pose proof (wf_handle_live s A wA Hwf HA) as Hl.
    rewrite Hr in Hl. destruct Hl as [[v] Hv].
    pose proof (wf_fresh s Hwf) as Hfresh.
    assert (next_addr s ≠ a) as Hba by congruence.
    eexists _, (next_addr s), v. split; [done|].
    split; [by eapply copy_ctor_effect|].
    split; [by mobs|]. split; [by mobs|].
    split; [mobs; by rewrite Hr|]. split; [by mobs|]. split; [done|].
    split; [mobs; rewrite Hr; by mobs|]. split; [by mobs|]. split.
    + intros x. eexists. split; [by mobs|]. split; [by mobs|].
      mobs. rewrite Hr. by mobs.
    + intros x. eexists. split; [mobs; rewrite Hr; by mobs|].
      split; [mobs; rewrite Hr; by mobs|]. by mobs.
  - eexists. split; [by eapply copy_ctor_null_effect|].
    split; [by mobs|]. split; [by mobs|]. by mobs.
Qed.

Lemma copy_ctor_deep_copy_witness :
  ∃ s' b, ResourceOwner_copy_ctor owner2 owner1 demo_state = Normal tt s'
    ∧ resource owner2 s' = Normal (Some b) s' ∧ b ≠ 0%nat
    ∧ resource_get owner2 s' = Normal 101 s'.
Proof.
  pose proof (copy_ctor_deep_copy demo_state owner1 owner2
                (mkOwner 1 "id1" (Some 0%nat)) wf_demo_state eq_refl eq_refl) as H0.
  cbn in H0. destruct H0 as (s' & b & v & Hv & E & _ & _ & _ & Hb & Hne & _ & Hg & _).
  - unfold grants. cbn. discriminate.
  - exists s', b. injection Hv as <-. repeat split; assumption.
Defined.

(** ** C3: copy assignment *)

(** C3.  For two distinct live objects of a well-formed state, [this = other]
    returns [this] with the id and the name of [other], and
    - both hold a resource: the value of [other]'s resource is stored in
      [this]'s existing allocation [p], which stays [this]'s handle, and
      nothing is allocated or released;
    - only [this] holds one: it is released and the handle becomes null;
    - only [other] holds one and the allocator grants the request: [this]
      gets a fresh allocation holding the value of [other]'s resource;
    - neither holds one: the handle stays null. *)
Theorem copy_assign_four_cases s this other wt wo :
  wf s → owners s !! this = Some wt → owners s !! other = Some wo →
  this ≠ other →
  match m_resource wt, m_resource wo with
  | Some p, Some q =>
      ∃ v, heap s !! q = Some v
        ∧ ResourceOwner_copy_assign this other s =
          Normal this (mkState (<[p := v]> (heap s))
            (<[this := mkOwner (m_id wo) (m_name wo) (Some p)]> (owners s))
            (next_addr s) (released s) (faults s))
  | Some p, None =>
      ResourceOwner_copy_assign this other s =
      Normal this (mkState (delete p (heap s))
        (<[this := mkOwner (m_id wo) (m_name wo) None]> (owners s))
        (next_addr s) (p :: released s) (faults s))
  | None, Some q =>
      grants s →
      ∃ v, heap s !! q = Some v
        ∧ next_addr s ≠ q
        ∧ ResourceOwner_copy_assign this other s =
          Normal this (mkState (<[next_addr s := v]> (heap s))
            (<[this := mkOwner (m_id wo) (m_name wo) (Some (next_addr s))]> (owners s))
            (S (next_addr s)) (released s) (tail (faults s)))
  | None, None =>
      ResourceOwner_copy_assign this other s =
      Normal this (mkState (heap s)
        (<[this := mkOwner (m_id wo) (m_name wo) None]> (owners s))
        (next_addr s) (released s) (faults s))
  end.
Proof.
  intros Hwf Ht Ho Hne.
  pose proof (wf_handle_live s this wt Hwf Ht) as Hlt.
  pose proof (wf_handle_live s other wo Hwf Ho) as Hlo.
  destruct (m_resource wt) as [p|] eqn:Hp, (m_resource wo) as [q|] eqn:Hq.
  - destruct Hlt as [v0 Hv0], Hlo as [v Hv]. exists v. split; [done|].
    by eapply copy_assign_both_effect.
  - rewrite (copy_assign_null_effect s this other wt wo) by (by rewrite ?Hp).
    by rewrite Hp.
  - intros Hg. destruct Hlo as [v Hv]. exists v. split; [done|].
    split; [pose proof (wf_fresh s Hwf); congruence|].
    by eapply copy_assign_alloc_effect.
  - rewrite (copy_assign_null_effect s this other wt wo) by (by rewrite ?Hp).
    rewrite Hp. by destruct s.
Qed.

Lemma copy_assign_four_cases_witness :
  ResourceOwner_copy_assign owner2 owner1 pair_state =
  Normal owner2 (mkState (<[1%nat := mkResource 101]> (heap pair_state))
    (<[owner2 := mkOwner 1 "id1" (Some 1%nat)]> (owners pair_state))
    2%nat [] []).
Proof.
  pose proof (copy_assign_four_cases pair_state owner2 owner1
                (mkOwner 2 "id2" (Some 1%nat)) (mkOwner 1 "id1" (Some 0%nat))
                wf_pair_state eq_refl eq_refl) as H0.
  cbn in H0. destruct H0 as (v & Hv & E).
  - discriminate.
  - injection Hv as <-. exact E.
Defined.

(** ** C4: the move constructor *)

(** C4.  Move-constructing [B] from a live [A] that holds the resource [a]
    gives [B] the id, the name and the handle [a] of [A]; the heap is
    untouched, so [a] still holds the same value.  Afterwards [A] is alive
    with a null handle, the state is well formed, and [A] can be destroyed
    (which releases nothing), copied (without any allocation), and be the
    target of a copy or move assignment from any live object. *)
Theorem move_ctor_transfers s A B wA a :
  wf s → owners s !! A = Some wA → owners s !! B = None →
  m_resource wA = Some a →
  ∃ s', ResourceOwner_move_ctor B (std_move A) s = Normal tt s'
    ∧ owners s' !! B = Some (mkOwner (m_id wA) (m_name wA) (Some a))
    ∧ heap s' = heap s ∧ released s' = released s ∧ next_addr s' = next_addr s
    ∧ is_Some (owners s' !! A) ∧ handle s' A = None
    ∧ wf s'
    ∧ (∃ s'', ResourceOwner_dtor A s' = Normal tt s''
         ∧ heap s'' = heap s' ∧ released s'' = released s')
    ∧ (∀ C, owners s' !! C = None →
         ∃ s'', ResourceOwner_copy_ctor C A s' = Normal tt s''
           ∧ heap s'' = heap s' ∧ wf s'')
    ∧ (∀ X, is_Some (owners s' !! X) →
         (∃ s'', wf s'' ∧ (ResourceOwner_copy_assign A X s' = Normal A s''
                           ∨ ResourceOwner_copy_assign A X s' = Throws s''))
         ∧ (∃ s'', wf s'' ∧ ResourceOwner_move_assign A (std_move X) s' = Normal A s'')).
Proof.
  intros Hwf HA HB Hr. assert (A ≠ B) as Hne by congruence.
  set (wA' := mkOwner (m_id wA) (moved_from (m_name wA)) None).
  set (wB := mkOwner (m_id wA) (m_name wA) (m_resource wA)).
  set (s' := with_owners (λ m, <[A := wA']> (<[B := wB]> m)) s).
  assert (ResourceOwner_move_ctor B A s = Normal tt s') as E
    by (by apply move_ctor_effect).
  assert (wf s') as Hwf'.
  { apply (wf_move s B A wA _ _ Hwf (handle_absent _ _ HB) HA);
      [congruence|done|done]. }
  unfold std_move. exists s'. split; [done|].
  assert (owners s' !! A = Some wA') as HA' by (cbn; by rewrite lookup_insert_eq).
  split; [cbn; rewrite lookup_insert_ne, lookup_insert_eq by done; unfold wB; by rewrite Hr|].
  do 3 (split; [done|]). split; [by exists wA'|].
  split; [by rewrite (handle_lookup _ _ _ HA')|]. split; [done|].
  split; [|split].
  - eexists. split; [by eapply (dtor_effect s' A wA')|]. done.
  - intros C HC. eexists. split; [by eapply (copy_ctor_null_effect s' C A wA')|].
    split; [done|]. by apply wf_new_object.
  - intros X [wX HX]. split.
    + by eapply copy_assign_safe.
    + by eapply move_assign_safe.
Qed.

(** ** C5: move assignment *)

(** C5.  For two distinct live objects of a well-formed state,
    [this = std::move(other)] returns [this]; the resource [this] held, if
    any, is released (it leaves the heap and enters the release log once);
    [this] ends with the id, the name and the handle of [other]; [other]
    ends with a null handle; the resource that [other] held is still live
    with the same value; and no other object changes. *)
Theorem move_assign_transfers s this other wt wo :
  wf s → owners s !! this = Some wt → owners s !! other = Some wo →
  this ≠ other →
  ∃ s', ResourceOwner_move_assign this (std_move other) s = Normal this s'
    ∧ heap s' = heap (release (m_resource wt) s)
    ∧ released s' = released (release (m_resource wt) s)
    ∧ next_addr s' = next_addr s
    ∧ owners s' !! this = Some (mkOwner (m_id wo) (m_name wo) (m_resource wo))
    ∧ is_Some (owners s' !! other) ∧ handle s' other = None
    ∧ (∀ k, k ≠ this → k ≠ other → owners s' !! k = owners s !! k)
    ∧ (∀ q, m_resource wo = Some q →
         is_Some (heap s' !! q) ∧ heap s' !! q = heap s !! q)
    ∧ wf s'.
Proof.
  intros Hwf Ht Ho Hne.
  pose proof (wf_handle_live s this wt Hwf Ht) as Hlt.
  unfold std_move. eexists. split; [by eapply move_assign_effect|].
  cbn. rewrite owners_release, next_addr_release.
  do 3 (split; [done|]).
  split; [by rewrite lookup_insert_ne, lookup_insert_eq|].
  split; [rewrite lookup_insert_eq; by eexists|].
  split; [unfold handle; cbn; by rewrite lookup_insert_eq|].
  split; [intros k ? ?; by rewrite !lookup_insert_ne|].
  split; [|by eapply wf_move_assign].
  intros q Hq. pose proof (wf_handle_live s other wo Hwf Ho) as Hlo.
  rewrite Hq in Hlo. destruct (m_resource wt) as [p|] eqn:Hp; cbn; [|done].
  assert (p ≠ q) as Hpq.
  { intros ->. apply Hne. apply (wf_unique s Hwf this other q).
    - by rewrite (handle_lookup s this wt).
    - by rewrite (handle_lookup s other wo). }
  by rewrite lookup_delete_ne.
Qed.

(** ** C8: self-move-assignment *)

(** C8.  For a live object of a well-formed state, [A = std::move(A)]
    returns [A]: its resource, if any, is released, and [A] is left alive
    with a null handle in a well-formed state.  Destroying [A] afterwards
    succeeds and releases nothing more, so the resource [A] held is in the
    release log exactly once and is no longer on the heap. *)
Theorem self_move_assign_is_safe s A wA :
  wf s → owners s !! A = Some wA →
  ∃ s', ResourceOwner_move_assign A (std_move A) s = Normal A s'
    ∧ wf s'
    ∧ is_Some (owners s' !! A) ∧ handle s' A = None
    ∧ heap s' = heap (release (m_resource wA) s)
    ∧ released s' = released (release (m_resource wA) s)
    ∧ ∃ s'', ResourceOwner_dtor A s' = Normal tt s''
        ∧ wf s'' ∧ released s'' = released s'
        ∧ ∀ a, m_resource wA = Some a →
            count_occ Nat.eq_dec (released s'') a = 1%nat ∧ heap s'' !! a = None.
Proof.
  intros Hwf HA. pose proof (wf_handle_live s A wA Hwf HA) as Hl.
  set (wA' := mkOwner (m_id wA) (self_move_assigned (m_name wA)) None).
  set (s' := with_owners (insert A wA') (release (m_resource wA) s)).
  assert (wf s') as Hwf' by (by eapply wf_reset).
  assert (owners s' !! A = Some wA') as HA'.
  { unfold s'; cbn. by rewrite lookup_insert_eq. }
  exists s'. split; [by apply move_assign_self_effect|]. split; [done|].
  split; [by exists wA'|]. split; [by rewrite (handle_lookup _ _ _ HA')|].
  do 2 (split; [done|]).
  destruct (dtor_safe s' A wA' Hwf' HA') as (s'' & Hwf'' & E & _ & _ & Hrel).
  exists s''. split; [done|]. split; [done|]. split; [done|].
  intros a Ha.
  assert (a ∈ released s'') as Hin.
  { rewrite Hrel. unfold s'. cbn. rewrite Ha. cbn. apply elem_of_cons. by left. }
  split.
  - apply NoDup_count_occ'; [|by apply list_elem_of_In].
    apply NoDup_ListNoDup, (wf_log_nodup s'' Hwf'').
  - by apply (wf_log_dead s'' Hwf'').
Qed.

(** ** C7: allocation failure during copy assignment *)

(** C7, as the code has it.  For two distinct live objects of a well-formed
    state, [this = other] throws exactly when [this] holds no resource,
    [other] holds one and the allocator refuses the request.  The state the
    exception leaves behind differs from the original one in the object
    [this] only, whose id and name are already those of [other] and whose
    handle is null as before: the heap, the release log and every other
    object are unchanged. *)
Theorem copy_assign_alloc_failure s this other wt wo :
  wf s → owners s !! this = Some wt → owners s !! other = Some wo →
  this ≠ other →
  ∀ s', ResourceOwner_copy_assign this other s = Throws s' ↔
        m_resource wt = None ∧ is_Some (m_resource wo)
        ∧ ∃ fs, faults s = true :: fs
            ∧ s' = mkState (heap s)
                     (<[this := mkOwner (m_id wo) (m_name wo) None]> (owners s))
                     (next_addr s) (released s) fs.
Proof.
  intros Hwf Ht Ho Hne s'.
  pose proof (wf_handle_live s this wt Hwf Ht) as Hlt.
  pose proof (wf_handle_live s other wo Hwf Ho) as Hlo.
  split.
  - destruct (m_resource wo) as [q|] eqn:Hq.
    + destruct Hlo as [v Hv]. destruct (m_resource wt) as [p|] eqn:Hp.
      * destruct Hlt as [v0 Hv0].
        by rewrite (copy_assign_both_effect s this other wt wo p q v0 v).
      * destruct (alloc_cases s) as [Hg|[fs Hf]].
        -- by rewrite (copy_assign_alloc_effect s this other wt wo q v).
        -- rewrite (copy_assign_throws s this other wt wo q fs) by done.
           intros [= <-]. split; [done|]. split; [by eexists|]. by exists fs.
    + by rewrite (copy_assign_null_effect s this other wt wo).
  - intros (Hp & [q Hq] & fs & Hf & ->). by eapply copy_assign_throws.
Qed.

(** ** C1: every allocation is released exactly once *)

(** C1.  From a well-formed state, a sequence of copy constructions, move
    constructions, copy assignments, move assignments and swaps on live
    objects (self-assignment and self-swap included, allocation failures
    included) never runs into undefined behaviour.  In the state it reaches,
    every live allocation is the handle of exactly one object.  Destroying
    the objects then, in any order, succeeds and leaves no object and no
    live allocation, and every allocation ever made occurs exactly once in
    the release log. *)
Theorem ownership_discipline s0 ops :
  wf s0 →
  run ops s0 ≠ MemoryError
  ∧ ∀ s1, run ops s0 = Finished s1 →
      (∀ a, is_Some (heap s1 !! a) →
         ∃ o, handle s1 o = Some a ∧ ∀ o', handle s1 o' = Some a → o' = o)
      ∧ ∀ order, NoDup order → (∀ o, o ∈ order ↔ is_Some (owners s1 !! o)) →
          ∃ s2, destroy_all order s1 = Normal tt s2
            ∧ owners s2 = ∅ ∧ heap s2 = ∅
            ∧ next_addr s2 = next_addr s1
            ∧ ∀ a, (a < next_addr s2)%nat →
                count_occ Nat.eq_dec (released s2) a = 1%nat.
Proof.
  intros Hwf. destruct (run_safe ops s0 Hwf) as [Hsafe Hreach].
  split; [done|]. intros s1 Hwf1%Hreach. split.
  - intros a [o Ho]%(wf_owned s1 Hwf1). exists o. split; [done|].
    intros o' Ho'. by apply (wf_unique s1 Hwf1 o' o a).
  - intros order Hnd Hall.
    destruct (destroy_all_safe order s1 Hwf1 Hnd Hall) as (s2 & E & Hwf2 & Hown & Hn).
    destruct (wf_all_destroyed s2 Hwf2 Hown) as [Hheap Hcount].
    exists s2. by repeat (split; [done|]).
Qed.

End Claims.

(** ** The claims at concrete inputs *)

(** C7 fails as stated: after the failed [owner2 = owner1], [owner2] carries
    the id and the name of [owner1]. *)
Lemma copy_assign_failure_changes_this :
  wf oom_state
  ∧ ResourceOwner_copy_assign owner2 owner1 oom_state = Throws oom_after
  ∧ owners oom_state !! owner2 = Some (mkOwner 2 "id2" None)
  ∧ owners oom_after !! owner2 = Some (mkOwner 1 "id1" None).
Proof.
  split; [exact wf_oom_state|]. split; [|split]; vm_compute; reflexivity.
Qed.

Lemma copy_assign_alloc_failure_witness :
  ResourceOwner_copy_assign owner2 owner1 oom_state = Throws oom_after.
Proof.
  apply (copy_assign_alloc_failure oom_state owner2 owner1
           (mkOwner 2 "id2" None) (mkOwner 1 "id1" (Some 0%nat))
           wf_oom_state eq_refl eq_refl).
  - discriminate.
  - split; [reflexivity|]. split; [by exists 0%nat|]. by exists [].
Defined.

Lemma move_ctor_transfers_witness :
  ∃ s', ResourceOwner_move_ctor (H := clearing_moves) owner3 owner1 demo_state
          = Normal tt s'
    ∧ owners s' !! owner3 = Some (mkOwner 1 "id1" (Some 0%nat))
    ∧ handle s' owner1 = None ∧ wf s'.
Proof.
  destruct (move_ctor_transfers (H := clearing_moves) demo_state owner1 owner3
              (mkOwner 1 "id1" (Some 0%nat)) 0%nat wf_demo_state eq_refl eq_refl
              eq_refl)
    as (s' & E & HB & _ & _ & _ & _ & HA & Hwf & _).
  exists s'. split; [exact E|]. split; [exact HB|]. split; [exact HA|exact Hwf].
Defined.

Lemma move_assign_transfers_witness :
  ∃ s', ResourceOwner_move_assign (H := clearing_moves) owner1 owner2 pair_state
          = Normal owner1 s'
    ∧ released s' = [0%nat]
    ∧ owners s' !! owner1 = Some (mkOwner 2 "id2" (Some 1%nat))
    ∧ handle s' owner2 = None.
Proof.
  destruct (move_assign_transfers (H := clearing_moves) pair_state owner1 owner2
              (mkOwner 1 "id1" (Some 0%nat)) (mkOwner 2 "id2" (Some 1%nat))
              wf_pair_state eq_refl eq_refl)
    as (s' & E & _ & Hrel & _ & Ht & _ & Ho & _).
  - discriminate.
  - exists s'. repeat split; assumption.
Defined.

Lemma self_move_assign_is_safe_witness :
  ∃ s', ResourceOwner_move_assign (H := clearing_moves) owner1 owner1 demo_state
          = Normal owner1 s'
    ∧ handle s' owner1 = None ∧ released s' = [0%nat].
Proof.
  destruct (self_move_assign_is_safe (H := clearing_moves) demo_state owner1
              (mkOwner 1 "id1" (Some 0%nat)) wf_demo_state eq_refl)
    as (s' & E & _ & _ & Hh & _ & Hrel & _).
  exists s'. repeat split; assumption.
Defined.

Lemma ownership_discipline_witness :
  wf demo_state
  ∧ run (H := clearing_moves) demo_ops demo_state ≠ MemoryError.
Proof.
  split; [exact wf_demo_state|].
  exact (proj1 (ownership_discipline (H := clearing_moves) demo_state demo_ops
                  wf_demo_state)).
Defined.

(** The driver prints what the scenario expects and releases both
    allocations. *)
Lemma main_prints :
  main (H := clearing_moves) initial_state =
  Normal [ (1, "id1", 101, Some 0%nat); (1, "id1", 101, Some 1%nat);
           (1, "id1", 202, Some 1%nat); (1, "id1", 303, Some 0%nat);
           (1, "id1", 404, Some 1%nat) ]
         (mkState ∅ ∅ 2%nat [1%nat; 0%nat] []).
Proof. vm_compute. reflexivity. Qed.

(** * Further properties of the code *)

(** ** [noexcept] *)

Lemma noexcept_ret {A} (a : A) : noexcept (mret a).
Proof. intros s. by cbn. Qed.

Lemma noexcept_bind {A B} (m : M A) (f : A → M B) :
  noexcept m → (∀ a, noexcept (f a)) → noexcept (m ≫= f).
Proof.
  intros Hm Hf s. rewrite bind_unfold. specialize (Hm s).
  destruct (m s) as [a s1| |]; [|done..].
  specialize (Hf a s1). destruct (f a s1); [|done..].
  destruct Hm, Hf. split; congruence.
Qed.

Lemma noexcept_field {A} o (f : ResourceOwner → A) : noexcept (field o f).
Proof. intros s. unfold field. by destruct (owners s !! o). Qed.

Lemma noexcept_assign o u : noexcept (assign o u).
Proof. intros s. unfold assign. by destruct (owners s !! o). Qed.

Lemma noexcept_begin_lifetime o w : noexcept (begin_lifetime o w).
Proof. intros s. unfold begin_lifetime. by destruct (owners s !! o). Qed.

Lemma noexcept_end_lifetime o : noexcept (end_lifetime o).
Proof. intros s. unfold end_lifetime. by destruct (owners s !! o). Qed.

Lemma noexcept_delete p : noexcept (delete_ p).
Proof.
  intros s. destruct p as [a|]; cbn; [|done]. by destruct (heap s !! a).
Qed.

Ltac noexcept_tac :=
  repeat first
    [ apply noexcept_bind; [|intros ?]
    | apply noexcept_field | apply noexcept_assign | apply noexcept_begin_lifetime
    | apply noexcept_end_lifetime | apply noexcept_delete | apply noexcept_ret
    | case_decide ].

(** X1.  The functions the source declares [noexcept] (move constructor, move
    assignment, [swap], the free [swap]) and the destructor never throw, in
    any state and for any arguments, and never call the allocator. *)
Theorem noexcept_is_honoured `{!StdStringMoves} this other :
  noexcept (ResourceOwner_move_ctor this (std_move other))
  ∧ noexcept (ResourceOwner_move_assign this (std_move other))
  ∧ noexcept (ResourceOwner_swap this other)
  ∧ noexcept (swap this other)
  ∧ noexcept (ResourceOwner_dtor this).
Proof.
  unfold swap, ResourceOwner_move_ctor, ResourceOwner_move_assign,
    ResourceOwner_swap, std_swap, ResourceOwner_dtor, string_move_assign, std_move.
  repeat split; noexcept_tac.
Qed.

(** ** Copy construction that fails *)



(** ** [swap]: symmetry and self-swap *)

Lemma swap_dead_left s a b :
  owners s !! a = None → ResourceOwner_swap a b s = Undefined.
Proof.
  intros Ha. unfold ResourceOwner_swap, std_swap, mbind, M_bind, field.
  by rewrite Ha.
Qed.

Lemma swap_dead_right s a b :
  owners s !! b = None → ResourceOwner_swap a b s = Undefined.
Proof.
  intros Hb. destruct (owners s !! a) as [wa|] eqn:Ha; [|by apply swap_dead_left].
  unfold ResourceOwner_swap, std_swap, mbind, M_bind, field.
  rewrite Ha. cbn. by rewrite Hb.
Qed.

(** X3.  [a.swap( b )] and [b.swap( a )] have the same outcome in every state,
    dead objects included, and [a.swap( a )] on a live object changes
    nothing. *)
Theorem swap_is_symmetric s a b :
  ResourceOwner_swap a b s = ResourceOwner_swap b a s
  ∧ (is_Some (owners s !! a) → ResourceOwner_swap a a s = Normal tt s).
Proof.
  split.
  - destruct (owners s !! a) as [wa|] eqn:Ha;
      [|by rewrite (swap_dead_left s a b), (swap_dead_right s b a)].
    destruct (owners s !! b) as [wb|] eqn:Hb;
      [|by rewrite (swap_dead_right s a b), (swap_dead_left s b a)].
    rewrite (swap_effect s a b wa wb), (swap_effect s b a wb wa) by done.
    f_equal. destruct s; unfold with_owners; cbn in *. f_equal.
    destruct (decide (a = b)) as [->|]; [congruence|]. by apply insert_insert_ne.
  - intros [wa Ha]. rewrite (swap_effect s a a wa wa) by done. f_equal.
    destruct s; unfold with_owners; cbn in *. f_equal.
    rewrite insert_insert_eq. by apply insert_id.
Qed.

Lemma swap_is_symmetric_witness :
  ResourceOwner_swap owner1 owner1 pair_state = Normal tt pair_state.
Proof.
  apply (swap_is_symmetric pair_state owner1 owner2).
  by exists (mkOwner 1 "id1" (Some 0%nat)).
Defined.

(** ** [Resource::get] and [Resource::set] *)

(** X4.  On a live Resource, [set( i )] followed by [get()] gives [i]; no other
    Resource, no object and no log changes; a later [set] overrides an
    earlier one; and setting the value that [get()] returns changes
    nothing. *)
Theorem Resource_set_then_get s p i r0 :
  heap s !! p = Some r0 →
  ∃ s', Resource_set p i s = Normal tt s'
    ∧ Resource_get p s' = Normal i s'
    ∧ (∀ q, q ≠ p → heap s' !! q = heap s !! q)
    ∧ owners s' = owners s ∧ released s' = released s
    ∧ next_addr s' = next_addr s ∧ faults s' = faults s
    ∧ (∀ j, Resource_set p j s' = Resource_set p j s)
    ∧ Resource_set p (i_ r0) s = Normal tt s.
Proof.
  intros Hp. eexists. split; [by mrun|]. split; [by mobs|].
  split; [intros q Hq; cbn; by rewrite lookup_insert_ne|].
  do 4 (split; [done|]). split.
  - intros j. mrun. f_equal. destruct s; unfold with_heap; cbn. f_equal.
    by rewrite insert_insert_eq.
  - mrun. rewrite eta_Resource. f_equal. destruct s; unfold with_heap; cbn in *.
    f_equal. by apply insert_id.
Qed.

Lemma Resource_set_then_get_witness :
  ∃ s', Resource_set 0%nat 7 demo_state = Normal tt s'
        ∧ Resource_get 0%nat s' = Normal 7 s'.
Proof.
  destruct (Resource_set_then_get demo_state 0%nat 7 (mkResource 101) eq_refl)
    as (s' & E & G & _).
  exists s'. split; [exact E|exact G].
Defined.

(** ** Setting a value through an owner *)

Lemma handle_Some s o a :
  handle s o = Some a ↔ ∃ w, owners s !! o = Some w ∧ m_resource w = Some a.
Proof.
  unfold handle. destruct (owners s !! o) as [w|]; simpl.
  - split; [intros Hr; by exists w|]. by intros (w' & [= <-] & Hr).
  - split; [done|]. by intros (w' & ? & _).
Qed.

Lemma resource_get_inv s o v :
  resource_get o s = Normal v s ↔
  ∃ p, handle s o = Some p ∧ heap s !! p = Some (mkResource v).
Proof.
  unfold resource_get, resource, Resource_get, field, deref, handle, mbind, M_bind.
  destruct (owners s !! o) as [w|]; cbn; [|split; [done|by intros (? & ? & _)]].
  destruct (m_resource w) as [p|]; cbn; [|split; [done|by intros (? & ? & _)]].
  destruct (heap s !! p) as [[x]|] eqn:Hh; cbn.
  - unfold mret, M_ret. split.
    + intros [= <-]. by exists p.
    + intros (? & [= <-] & Hv). rewrite Hh in Hv. by injection Hv as ->.
  - split; [done|]. intros (? & [= <-] & Hv). by rewrite Hh in Hv.
Qed.

(** X5.  In a well-formed state, [o.resource()->set( x )] on an owner with a
    resource changes the value seen through [o] to [x] and the value seen
    through no other owner; the objects themselves are untouched and the
    state stays well formed. *)
Theorem resource_set_reaches_one_owner s o x :
  wf s → is_Some (handle s o) →
  ∃ s', resource_set o x s = Normal tt s'
    ∧ resource_get o s' = Normal x s'
    ∧ (∀ o' v, o' ≠ o → resource_get o' s = Normal v s →
         resource_get o' s' = Normal v s')
    ∧ owners s' = owners s
    ∧ wf s'.
Proof.
  intros Hwf [p Hp].
  destruct (wf_live s Hwf o p Hp) as [r0 Hr0].
  apply handle_Some in Hp as (w & Hw & Hr).
  exists (with_heap (insert p (mkResource x)) s).
  split; [mobs; rewrite Hr; by mobs|].
  split; [mobs; rewrite Hr; by mobs|]. split; [|split; [done|]].
  - intros o' v Hne (q & Hq & Hv)%resource_get_inv. apply resource_get_inv.
    exists q. split; [done|]. cbn. rewrite lookup_insert_ne; [done|].
    intros <-. apply Hne. apply (wf_unique s Hwf o' o p); [done|].
    by rewrite (handle_lookup s o w).
  - apply (wf_same s _ Hwf); try done. intros a. cbn.
    rewrite lookup_insert_is_Some. destruct (decide (p = a)) as [<-|];
      intuition eauto.
Qed.

Lemma resource_set_reaches_one_owner_witness :
  ∃ s', resource_set owner1 7 pair_state = Normal tt s'
        ∧ resource_get owner1 s' = Normal 7 s'
        ∧ resource_get owner2 s' = Normal 202 s'.
Proof.
  destruct (resource_set_reaches_one_owner pair_state owner1 7 wf_pair_state)
    as (s' & E & G & Hother & _).
  - by exists 0%nat.
  - exists s'. split; [exact E|]. split; [exact G|].
    apply Hother; [discriminate|reflexivity].
Defined.

(** ** The constructor taking a pointer *)



(** X7.  The constructor stores the pointer it is given without asking whose it
    is.  Given the handle of a live owner [o1], it breaks the invariant:
    whichever of the two objects is destroyed second deletes the Resource
    again, which is undefined behaviour. *)
Theorem ctor_shared_pointer_is_deleted_twice s o1 o2 w p i n :
  wf s → owners s !! o1 = Some w → m_resource w = Some p →
  owners s !! o2 = None →
  ∃ s', ResourceOwner_ctor o2 i n (Some p) s = Normal tt s'
    ∧ ¬ wf s'
    ∧ (ResourceOwner_dtor o1;; ResourceOwner_dtor o2) s' = Undefined
    ∧ (ResourceOwner_dtor o2;; ResourceOwner_dtor o1) s' = Undefined.
Proof.
  intros Hwf H1 Hr H2. assert (o1 ≠ o2) as Hne by congruence.
  pose proof (wf_handle_live s o1 w Hwf H1) as Hl. rewrite Hr in Hl.
  destruct Hl as [r Hp].
  exists (with_owners (insert o2 (mkOwner i n (Some p))) s).
  split; [by mrun|]. split; [|split].
  - intros Hwf'. apply Hne.
    apply (wf_unique _ Hwf' o1 o2 p); unfold handle; cbn.
    + rewrite lookup_insert_ne by done. by rewrite H1.
    + by rewrite lookup_insert_eq.
  - mobs. rewrite Hr. assert (live s (Some p)) by (by exists r). mobs.
    unfold delete_. rewrite ?bind_unfold. cbn. by rewrite lookup_delete_eq.
  - assert (live s (Some p)) by (by exists r). mobs. rewrite Hr.
    unfold delete_. rewrite ?bind_unfold. cbn. by rewrite lookup_delete_eq.
Qed.

Lemma ctor_shared_pointer_is_deleted_twice_witness :
  ∃ s', ResourceOwner_ctor owner2 2 "id2" (Some 0%nat) demo_state = Normal tt s'
        ∧ (ResourceOwner_dtor owner2;; ResourceOwner_dtor owner1) s' = Undefined.
Proof.
  destruct (ctor_shared_pointer_is_deleted_twice demo_state owner1 owner2
              (mkOwner 1 "id1" (Some 0%nat)) 0%nat 2 "id2" wf_demo_state
              eq_refl eq_refl eq_refl) as (s' & E & _ & _ & U).
  exists s'. split; [exact E|exact U].
Defined.

(** ** [main] in any context *)

Lemma wf_beyond s a : wf s → (next_addr s ≤ a)%nat → heap s !! a = None.
Proof.
  intros Hwf Hle. apply eq_None_not_Some. intros Hs.
  assert (a < next_addr s)%nat; [|lia]. apply (wf_allocated s Hwf). by left.
Qed.

Lemma new_effect s v :
  grants s →
  new_ (Resource_ctor v) s =
  Normal (next_addr s)
    (mkState (<[next_addr s := mkResource v]> (heap s)) (owners s)
       (S (next_addr s)) (released s) (tail (faults s))).
Proof. intros Hg. unfold Resource_ctor. mrun. unfold mret, M_ret. by mrun. Qed.

Lemma resource_set_effect s o x w p r :
  owners s !! o = Some w → m_resource w = Some p → heap s !! p = Some r →
  resource_set o x s = Normal tt (with_heap (insert p (mkResource x)) s).
Proof. intros Ho Hr Hp. mobs. rewrite Hr. by mobs. Qed.

Lemma observe_effect `{!StdStringMoves} s o w p r :
  owners s !! o = Some w → m_resource w = Some p → heap s !! p = Some r →
  observe o s = Normal (m_id w, m_name w, i_ r, Some p) s.
Proof.
  intros Ho Hr Hp. unfold observe. mobs. rewrite Hr. mobs. unfold mret, M_ret.
  mobs. by rewrite Hr.
Qed.

Ltac lookup_side :=
  unfold owner1, owner2, owner3;
  cbn [owners heap next_addr released faults with_owners with_heap release live
       m_resource m_id m_name i_];
  repeat first [ rewrite lookup_insert_eq
               | rewrite lookup_insert_ne by (done || lia)
               | rewrite lookup_delete_ne by (done || lia) ];
  first [ done | reflexivity | eassumption | by eexists ].

Tactic Notation "run_with" open_constr(L) :=
  rewrite bind_unfold; erewrite L; [|lookup_side..]; cbn beta iota;
  cbn [owners heap next_addr released faults with_owners with_heap release
       m_resource m_id m_name i_].

Section MainFrame.
Context `{!StdStringMoves}.

(** X8.  Started in any well-formed state in which its three objects are not
    alive yet, with an allocator that grants two requests, and with any
    standard library, [main] prints the five lines below (the handles are
    the two fresh allocations) and returns with the heap and the objects as
    it found them: both allocations are released, the second one last. *)
Theorem main_runs_in_any_context s :
  wf s →
  owners s !! owner1 = None → owners s !! owner2 = None →
  owners s !! owner3 = None →
  grants_next 2 s →
  main s =
  Normal [ (1, "id1", 101, Some (next_addr s));
           (1, "id1", 101, Some (S (next_addr s)));
           (1, "id1", 202, Some (S (next_addr s)));
           (1, "id1", 303, Some (next_addr s));
           (1, "id1", 404, Some (S (next_addr s))) ]
         (mkState (heap s) (owners s) (S (S (next_addr s)))
            (S (next_addr s) :: next_addr s :: released s) (drop 2 (faults s))).
Proof.
  intros Hwf H1 H2 H3 Hg.
  pose proof (wf_beyond s (next_addr s) Hwf (le_n _)) as Hn0.
  pose proof (wf_beyond s (S (next_addr s)) Hwf (le_S _ _ (le_n _))) as Hn1.
  assert (grants s) as Hg0.
  { unfold grants. rewrite head_lookup. apply Hg. lia. }
  assert (head (tail (faults s)) ≠ Some true) as Hg1.
  { rewrite head_lookup, lookup_tail. apply Hg. lia. }
  unfold main.
  (* ResourceOwner owner1( 1, "id1", new Resource(101) ) *)
  run_with (new_effect s 101).
  unfold ResourceOwner_ctor. run_with begin_lifetime_None.
  run_with (observe_effect _ owner1 (mkOwner 1 "id1" (Some (next_addr s)))
              (next_addr s) (mkResource 101)).
  (* ResourceOwner owner2( owner1 ) *)
  run_with (copy_ctor_effect _ owner2 owner1 (mkOwner 1 "id1" (Some (next_addr s))) (next_addr s)
              (mkResource 101)).
  run_with (observe_effect _ owner2 (mkOwner 1 "id1" (Some (S (next_addr s)))) (S (next_addr s))
              (mkResource 101)).
  (* owner1.resource()->set(202); owner2 = owner1 *)
  run_with (resource_set_effect _ owner1 202 (mkOwner 1 "id1" (Some (next_addr s))) (next_addr s)
              (mkResource 101)).
  run_with (copy_assign_both_effect _ owner2 owner1
              (mkOwner 1 "id1" (Some (S (next_addr s)))) (mkOwner 1 "id1" (Some (next_addr s))) (S (next_addr s)) (next_addr s)
              (mkResource 101) (mkResource 202)).
  run_with (observe_effect _ owner2 (mkOwner 1 "id1" (Some (S (next_addr s)))) (S (next_addr s))
              (mkResource 202)).
  (* owner1.resource()->set(303); ResourceOwner owner3( std::move(owner1) ) *)
  run_with (resource_set_effect _ owner1 303 (mkOwner 1 "id1" (Some (next_addr s))) (next_addr s)
              (mkResource 202)).
  unfold std_move.
  run_with (move_ctor_effect _ owner3 owner1 (mkOwner 1 "id1" (Some (next_addr s)))).
  run_with (observe_effect _ owner3 (mkOwner 1 "id1" (Some (next_addr s))) (next_addr s)
              (mkResource 303)).
  (* owner2.resource()->set(404); owner1 = std::move(owner2) *)
  run_with (resource_set_effect _ owner2 404 (mkOwner 1 "id1" (Some (S (next_addr s)))) (S (next_addr s))
              (mkResource 202)).
  run_with (move_assign_effect _ owner1 owner2
              (mkOwner 1 (moved_from "id1") None) (mkOwner 1 "id1" (Some (S (next_addr s))))).
  run_with (observe_effect _ owner1 (mkOwner 1 "id1" (Some (S (next_addr s)))) (S (next_addr s))
              (mkResource 404)).
  (* the destructors *)
  run_with (dtor_effect _ owner3 (mkOwner 1 "id1" (Some (next_addr s)))).
  run_with (dtor_effect _ owner2
              (mkOwner 1 (move_assigned_from (moved_from "id1") "id1") None)).
  run_with (dtor_effect _ owner1 (mkOwner 1 "id1" (Some (S (next_addr s))))).
  unfold mret, M_ret. f_equal. unfold with_owners. cbn. f_equal.
  - apply map_eq. intros k.
    destruct (decide (k = next_addr s)) as [->|]; [|destruct (decide (k = S (next_addr s))) as [->|]].
    + rewrite lookup_delete_ne, lookup_delete_eq by lia. done.
    + rewrite lookup_delete_eq. done.
    + by rewrite !lookup_delete_ne, !lookup_insert_ne.
  - apply map_eq. intros k.
    destruct (decide (k = owner1)) as [->|];
      [|destruct (decide (k = owner2)) as [->|];
        [|destruct (decide (k = owner3)) as [->|]]].
    + by rewrite lookup_delete_eq.
    + rewrite lookup_delete_ne, lookup_delete_eq by done. done.
    + rewrite !lookup_delete_ne, lookup_delete_eq by done. done.
    + by rewrite !lookup_delete_ne, !lookup_insert_ne.
  - by destruct (faults s) as [|? [|? ?]].
Qed.

End MainFrame.

Lemma wf_busy_state : wf busy_state.
Proof.
  refine (wf_faults (mkState {[ 0%nat := mkResource 55 ]}
            {[ 7%nat := mkOwner 7 "other" (Some 0%nat) ]} 1%nat [] [])
            [false; false; true] _).
  apply (wf_new_resource initial_state 7%nat (mkOwner 7 "other" (Some 0%nat))
           (mkResource 55) wf_initial_state); [|done].
  by apply handle_absent.
Qed.

Lemma main_runs_in_any_context_witness :
  main (H := clearing_moves) busy_state =
  Normal [ (1, "id1", 101, Some 1%nat); (1, "id1", 101, Some 2%nat);
           (1, "id1", 202, Some 2%nat); (1, "id1", 303, Some 1%nat);
           (1, "id1", 404, Some 2%nat) ]
         (mkState (heap busy_state) (owners busy_state) 3%nat
            [2%nat; 1%nat] [true]).
Proof.
  apply (main_runs_in_any_context (H := clearing_moves) busy_state wf_busy_state
           eq_refl eq_refl eq_refl).
  intros [|[|i]] Hi; cbn; [discriminate|discriminate|lia].
Defined.

(** ** Copy assignment: equal, independent, idempotent *)



(** ** A copy that is destroyed *)



(** ** Moves composed *)

Section Moves.
Context `{!StdStringMoves}.

(** X11.  [B = std::move(A); A = std::move(B);] between two distinct live objects
    gives [A] back exactly what it had (id, name and handle; the heap cell
    behind the handle is untouched), releases the resource [B] held and
    leaves [B] alive without one. *)
Theorem move_there_and_back s A B wA wB :
  wf s → owners s !! A = Some wA → owners s !! B = Some wB → A ≠ B →
  ∃ s', (ResourceOwner_move_assign B (std_move A);;
         ResourceOwner_move_assign A (std_move B)) s = Normal A s'
    ∧ owners s' !! A = Some wA
    ∧ is_Some (owners s' !! B) ∧ handle s' B = None
    ∧ heap s' = heap (release (m_resource wB) s)
    ∧ released s' = released (release (m_resource wB) s)
    ∧ (∀ a, m_resource wA = Some a → heap s' !! a = heap s !! a)
    ∧ wf s'.
Proof.
  intros Hwf HA HB Hne. unfold std_move.
  pose proof (wf_handle_live s B wB Hwf HB) as HlB.
  set (wB1 := mkOwner (m_id wA) (m_name wA) (m_resource wA)).
  set (wA1 := mkOwner (m_id wA) (move_assigned_from (m_name wB) (m_name wA)) None).
  set (s1 := with_owners (λ m, <[A := wA1]> (<[B := wB1]> m))
               (release (m_resource wB) s)).
  assert (ResourceOwner_move_assign B A s = Normal B s1) as E1
    by (by apply move_assign_effect).
  assert (wf s1) as Hwf1 by (by apply (wf_move_assign s B A wB wA)).
  assert (owners s1 !! A = Some wA1) as HA1
    by (unfold s1; cbn; by rewrite lookup_insert_eq).
  assert (owners s1 !! B = Some wB1) as HB1
    by (unfold s1; cbn; by rewrite lookup_insert_ne, lookup_insert_eq).
  eexists. split.
  { rewrite bind_unfold, E1. cbn beta iota.
    by apply (move_assign_effect s1 A B wA1 wB1). }
  cbn. split; [rewrite lookup_insert_ne, lookup_insert_eq by done; by destruct wA|].
  split; [rewrite lookup_insert_eq; by eexists|].
  split; [unfold handle; cbn; by rewrite lookup_insert_eq|].
  do 2 (split; [done|]). split.
  - intros a Ha. destruct (m_resource wB) as [b|] eqn:Hb; cbn; [|done].
    rewrite lookup_delete_ne; [done|]. intros ->. apply Hne.
    apply (wf_unique s Hwf A B a).
    + by rewrite (handle_lookup s A wA).
    + by rewrite (handle_lookup s B wB).
  - by apply (wf_move_assign s1 A B wA1 wB1).
Qed.

(** X12.  Move assignment between two distinct live objects does what destroying
    [this] and move-constructing it again from [other] does: the same heap,
    the same release log, the same [this] and the same other objects; the
    donor is left with a null handle either way (only its name, which the
    library leaves unspecified, may differ). *)
Theorem move_assign_is_destroy_then_move_construct s this other wt wo :
  wf s → owners s !! this = Some wt → owners s !! other = Some wo →
  this ≠ other →
  ∃ s1 s2,
    ResourceOwner_move_assign this (std_move other) s = Normal this s1
    ∧ (ResourceOwner_dtor this;;
       ResourceOwner_move_ctor this (std_move other)) s = Normal tt s2
    ∧ heap s1 = heap s2 ∧ released s1 = released s2
    ∧ next_addr s1 = next_addr s2 ∧ faults s1 = faults s2
    ∧ (∀ k, k ≠ other → owners s1 !! k = owners s2 !! k)
    ∧ handle s1 other = None ∧ handle s2 other = None.
Proof.
  intros Hwf Ht Ho Hne. unfold std_move.
  pose proof (wf_handle_live s this wt Hwf Ht) as Hl.
  eexists _, _. split; [by apply move_assign_effect|]. split.
  { rewrite bind_unfold, (dtor_effect s this wt) by done. cbn beta iota.
    apply (move_ctor_effect _ this other wo); cbn; rewrite owners_release.
    - by rewrite lookup_delete_eq.
    - by rewrite lookup_delete_ne. }
  cbn. do 4 (split; [done|]). split; [|split].
  - intros k Hk. rewrite !(lookup_insert_ne _ other) by done.
    destruct (decide (k = this)) as [->|].
    + by rewrite !lookup_insert_eq.
    + by rewrite !lookup_insert_ne, lookup_delete_ne.
  - unfold handle; cbn. by rewrite lookup_insert_eq.
  - unfold handle; cbn. by rewrite lookup_insert_eq.
Qed.

End Moves.

Lemma move_there_and_back_witness :
  ∃ s', (ResourceOwner_move_assign (H := clearing_moves) owner2 owner1;;
         ResourceOwner_move_assign (H := clearing_moves) owner1 owner2) pair_state
        = Normal owner1 s'
    ∧ owners s' !! owner1 = Some (mkOwner 1 "id1" (Some 0%nat))
    ∧ released s' = [1%nat].
Proof.
  destruct (move_there_and_back (H := clearing_moves) pair_state owner1 owner2
              (mkOwner 1 "id1" (Some 0%nat)) (mkOwner 2 "id2" (Some 1%nat))
              wf_pair_state eq_refl eq_refl)
    as (s' & E & HA & _ & _ & _ & Hrel & _).
  - discriminate.
  - exists s'. split; [exact E|]. split; [exact HA|exact Hrel].
Defined.

Lemma move_assign_is_destroy_then_move_construct_witness :
  ∃ s1 s2,
    ResourceOwner_move_assign (H := clearing_moves) owner1 owner2 pair_state
    = Normal owner1 s1
    ∧ (ResourceOwner_dtor owner1;;
       ResourceOwner_move_ctor (H := clearing_moves) owner1 owner2) pair_state
      = Normal tt s2
    ∧ heap s1 = heap s2 ∧ released s1 = released s2.
Proof.
  destruct (move_assign_is_destroy_then_move_construct (H := clearing_moves)
              pair_state owner1 owner2
              (mkOwner 1 "id1" (Some 0%nat)) (mkOwner 2 "id2" (Some 1%nat))
              wf_pair_state eq_refl eq_refl)
    as (s1 & s2 & E1 & E2 & Hh & Hr & _).
  - discriminate.
  - exists s1, s2. split; [exact E1|]. split; [exact E2|].
    split; [exact Hh|exact Hr].
Defined.

(** ** Counting allocations *)

Lemma wf_count s :
  wf s → next_addr s = (size (heap s) + length (released s))%nat.
Proof.
  intros Hwf.
  assert (set_seq 0 (next_addr s) =@{gset nat}
          dom (heap s) ∪ list_to_set (released s)) as Heq.
  { apply set_eq. intros a.
    rewrite elem_of_set_seq, elem_of_union, elem_of_dom, elem_of_list_to_set.
    pose proof (wf_allocated s Hwf a). split; [intros [_ ?]|intros ?]; [tauto|].
    split; [lia|tauto]. }
  apply (f_equal size) in Heq.
  rewrite size_set_seq, size_union, size_dom, size_list_to_set in Heq.
  - done.
  - apply (wf_log_nodup s Hwf).
  - intros a Ha Hin. apply elem_of_dom in Ha.
    apply elem_of_list_to_set in Hin.
    rewrite (wf_log_dead s Hwf a Hin) in Ha. by destruct Ha.
Qed.

(** X13.  In every state that a sequence of operations reaches from a
    well-formed one, the number of live Resources is the number of
    allocations made minus the number of releases, which is what a counter
    incremented by [new] and decremented by [delete] shows; once every
    object is destroyed, in any order, there have been as many releases as
    allocations. *)
Theorem live_count_is_allocations_minus_releases `{!StdStringMoves} s0 ops s1 :
  wf s0 → run ops s0 = Finished s1 →
  size (heap s1) = (next_addr s1 - length (released s1))%nat
  ∧ (length (released s1) ≤ next_addr s1)%nat
  ∧ ∀ order, NoDup order → (∀ o, o ∈ order ↔ is_Some (owners s1 !! o)) →
      ∃ s2, destroy_all order s1 = Normal tt s2
        ∧ length (released s2) = next_addr s2
        ∧ next_addr s2 = next_addr s1.
Proof.
  intros Hwf Hrun.
  pose proof (proj2 (run_safe ops s0 Hwf) s1 Hrun) as Hwf1.
  pose proof (wf_count s1 Hwf1) as Hc. split; [lia|]. split; [lia|].
  intros order Hnd Hall.
  destruct (destroy_all_safe order s1 Hwf1 Hnd Hall) as (s2 & E & Hwf2 & Hown & Hn).
  destruct (wf_all_destroyed s2 Hwf2 Hown) as [Hheap _].
  pose proof (wf_count s2 Hwf2) as Hc2. rewrite Hheap, map_size_empty in Hc2.
  exists s2. split; [done|]. split; [lia|done].
Qed.

Lemma live_count_is_allocations_minus_releases_witness :
  size (heap demo_final) = (next_addr demo_final - length (released demo_final))%nat.
Proof.
  apply (live_count_is_allocations_minus_releases (H := clearing_moves)
           demo_state demo_ops demo_final wf_demo_state).
  vm_compute. reflexivity.
Defined.

(** ** The destructor and the other owners *)

(** X14.  Destroying a live object of a well-formed state succeeds, ends its
    lifetime, and leaves the value seen through every other owner as it
    was; the state stays well formed.  An object without a resource is
    destroyed without any release. *)
Theorem dtor_leaves_others_intact s o w :
  wf s → owners s !! o = Some w →
  ∃ s', ResourceOwner_dtor o s = Normal tt s'
    ∧ owners s' !! o = None
    ∧ (∀ k, k ≠ o → owners s' !! k = owners s !! k)
    ∧ (∀ o' v, o' ≠ o → resource_get o' s = Normal v s →
         resource_get o' s' = Normal v s')
    ∧ (m_resource w = None → heap s' = heap s ∧ released s' = released s)
    ∧ wf s'.
Proof.
  intros Hwf Ho. pose proof (wf_handle_live s o w Hwf Ho) as Hl.
  eexists. split; [by apply dtor_effect|]. cbn. rewrite owners_release.
  split; [by rewrite lookup_delete_eq|].
  split; [intros k ?; by rewrite lookup_delete_ne|]. split; [|split].
  - intros o' v Hne (q & Hq & Hv)%resource_get_inv. apply resource_get_inv.
    exists q. split.
    + unfold handle in *. cbn. rewrite owners_release.
      by rewrite lookup_delete_ne.
    + destruct (m_resource w) as [p|] eqn:Hp; cbn; [|done].
      rewrite lookup_delete_ne; [done|]. intros <-. apply Hne.
      apply (wf_unique s Hwf o' o p); [done|]. by rewrite (handle_lookup s o w).
  - by intros ->.
  - by apply wf_dtor.
Qed.

Lemma dtor_leaves_others_intact_witness :
  ∃ s', ResourceOwner_dtor owner1 pair_state = Normal tt s'
        ∧ resource_get owner2 s' = Normal 202 s'.
Proof.
  destruct (dtor_leaves_others_intact pair_state owner1
              (mkOwner 1 "id1" (Some 0%nat)) wf_pair_state eq_refl)
    as (s' & E & _ & _ & Hother & _).
  exists s'. split; [exact E|]. apply Hother; [discriminate|reflexivity].
Defined.
